(** * folio service worker (sw.js): cache orchestration, verified

    A shallow embedding of [src/sw.js]: the three lifecycle listeners
    ([install], [activate], [fetch]) over a model of the browser's Cache
    Storage.  Every listener is run to the completion of the work it
    started, including its write-behind; awaited store calls take effect in
    the order of the source, and the one call that is not awaited is given
    both orders ([Landing]). *)

From Stdlib Require Import String Ascii List Bool Arith PeanoNat Lia.
From Stdlib Require Import DecimalString.
Import ListNotations.
Open Scope string_scope.
Open Scope list_scope.

(** ** JavaScript strings *)

(** [s.startsWith(p)] *)
Definition startsWith (s p : string) : bool := String.prefix p s.

(** [s.includes(p)]: [p] occurs in [s] at some offset. *)
Fixpoint includes (s p : string) : bool :=
  String.prefix p s ||
  match s with
  | EmptyString => false
  | String _ s' => includes s' p
  end.

(** ** [new URL(href)]

    Request URLs reach the worker serialised ([scheme://host[:port]/path...]),
    so the parser only has to cut the serialisation apart. *)

Module URL.

Record t := mk { href : string; protocol : string; host : string;
                 hostname : string; origin : string }.

(** Split [s] before the first character satisfying [stop]. *)
Fixpoint take_until (stop : ascii -> bool) (s : string) : string * string :=
  match s with
  | EmptyString => (EmptyString, EmptyString)
  | String c s' =>
      if stop c then (EmptyString, s)
      else let (a, b) := take_until stop s' in (String c a, b)
  end.

(** The part of an authority after its last ["@"] (the userinfo, if any,
    is dropped). *)
Fixpoint after_userinfo (s : string) : string :=
  match s with
  | EmptyString => EmptyString
  | String c s' =>
      if includes s' "@" then after_userinfo s'
      else if Ascii.eqb c "@" then s' else s
  end.

Definition is_colon (c : ascii) : bool := Ascii.eqb c ":".
Definition ends_authority (c : ascii) : bool :=
  Ascii.eqb c "/" || Ascii.eqb c "?" || Ascii.eqb c "#".
Definition is_rbracket (c : ascii) : bool := Ascii.eqb c "]".

(** Host without its port; an IPv6 literal keeps its brackets. *)
Definition strip_port (hostport : string) : string :=
  if String.prefix "[" hostport
  then let (a, b) := take_until is_rbracket hostport in
       if String.prefix "]" b then (a ++ "]")%string else a
  else fst (take_until is_colon hostport).

Definition tuple_origin_scheme (scheme : string) : bool :=
  String.eqb scheme "http" || String.eqb scheme "https" ||
  String.eqb scheme "ws" || String.eqb scheme "wss" ||
  String.eqb scheme "ftp".

Definition parse (s : string) : t :=
  let (scheme, rest) := take_until is_colon s in
  if String.prefix "://" rest then
    let authority := fst (take_until ends_authority (substring 3 (String.length rest - 3) rest)) in
    let hostport := after_userinfo authority in
    mk s (scheme ++ ":")%string hostport (strip_port hostport)
       (if tuple_origin_scheme scheme
        then (scheme ++ "://" ++ hostport)%string else "null")
  else
    mk s (scheme ++ ":")%string "" "" "null".

End URL.

(** ** Requests and responses *)

Record Request := mkRequest { method : string; url : string }.

Record Response := mkResponse { status : nat; body : string }.

(** [response.ok]: the status is in the range 200-299. *)
Definition ok (r : Response) : bool := (200 <=? status r)%nat && (status r <=? 299)%nat.

Definition Request_eqb (a b : Request) : bool :=
  String.eqb (method a) (method b) && String.eqb (url a) (url b).

Definition GET (u : string) : Request := mkRequest "GET" u.

(** ** The Cache Storage

    A [Cache] keeps its entries in insertion order and a [CacheStorage] keeps
    its caches in creation order; both orders are observable ([cache.keys()],
    [caches.keys()], [caches.match]). *)

Definition Cache := list (Request * Response).
Definition CacheStorage := list (string * Cache).

Module Cache.

Definition is_key (r : Request) (e : Request * Response) : bool :=
  Request_eqb (fst e) r.

Definition match_ (c : Cache) (r : Request) : option Response :=
  option_map snd (find (is_key r) c).

Definition keys (c : Cache) : list Request := map fst c.

Definition delete (c : Cache) (r : Request) : Cache :=
  filter (fun e => negb (is_key r e)) c.

(** [put] drops the entries the request already matches and appends the
    new one. *)
Definition put (c : Cache) (r : Request) (resp : Response) : Cache :=
  delete c r ++ [(r, resp)].

Definition has (c : Cache) (r : Request) : bool := existsb (is_key r) c.

End Cache.

Module Storage.

Definition named (name : string) (g : string * Cache) : bool :=
  String.eqb (fst g) name.

Definition lookup (cs : CacheStorage) (name : string) : option Cache :=
  option_map snd (find (named name) cs).

Definition has (cs : CacheStorage) (name : string) : bool :=
  existsb (named name) cs.

(** [caches.open(name)] creates an empty cache, last in creation order,
    when none has the name. *)
Definition open (cs : CacheStorage) (name : string) : CacheStorage :=
  if has cs name then cs else cs ++ [(name, [])].

Definition keys (cs : CacheStorage) : list string := map fst cs.

Definition delete (cs : CacheStorage) (name : string) : CacheStorage :=
  filter (fun g => negb (named name g)) cs.

Definition update (cs : CacheStorage) (name : string) (f : Cache -> Cache)
  : CacheStorage :=
  map (fun g => if named name g then (fst g, f (snd g)) else g) cs.

(** [caches.match(request)]: the caches are searched in creation order and
    the first one holding the request answers. *)
Fixpoint match_ (cs : CacheStorage) (r : Request) : option Response :=
  match cs with
  | [] => None
  | g :: cs' =>
      match Cache.match_ (snd g) r with
      | Some resp => Some resp
      | None => match_ cs' r
      end
  end.

(** The entries of a generation; a generation that does not exist holds
    none. *)
Definition entries (cs : CacheStorage) (name : string) : Cache :=
  match lookup cs name with Some c => c | None => [] end.

End Storage.

(** ** Effects

    A listener runs against a [World]: the Cache Storage it mutates and the
    trace of what it did.  A [Job] is a promise-returning computation: it
    settles as [Fulfilled] or [Rejected]. *)

Inductive Event :=
| EvCachesMatch (r : Request)
| EvFetch (r : Request)
| EvCachesOpen (name : string)
| EvCachePut (name : string) (r : Request) (resp : Response)
| EvCacheKeys (name : string)
| EvCacheDelete (name : string) (r : Request)
| EvCachesKeys
| EvCachesDelete (name : string)
| EvSkipWaiting
| EvClientsClaim.

Record World := mkWorld { caches : CacheStorage; trace : list Event }.

Inductive Promise (A : Type) :=
| Fulfilled (a : A)
| Rejected.
Arguments Fulfilled {A} a.
Arguments Rejected {A}.

Definition Job (A : Type) := World -> Promise A * World.

Definition ret {A} (a : A) : Job A := fun w => (Fulfilled a, w).

(** [p.then(f)] *)
Definition bind {A B} (j : Job A) (f : A -> Job B) : Job B :=
  fun w =>
    match j w with
    | (Fulfilled a, w') => f a w'
    | (Rejected, w') => (Rejected, w')
    end.

(** [p.catch(() => h)] *)
Definition catch {A} (j : Job A) (h : Job A) : Job A :=
  fun w =>
    match j w with
    | (Fulfilled a, w') => (Fulfilled a, w')
    | (Rejected, w') => h w'
    end.

(** A promise nobody waits for: it runs, its settlement is dropped. *)
Definition detach {A} (j : Job A) : Job unit :=
  fun w => (Fulfilled tt, snd (j w)).

(** [Promise.all]: the jobs have all been started by the time it is called,
    so each one runs whatever the others do; it rejects when one of them
    does. *)
Fixpoint Promise_all {A} (js : list (Job A)) : Job (list A) :=
  fun w =>
    match js with
    | [] => (Fulfilled [], w)
    | j :: js' =>
        let (p, w1) := j w in
        let (ps, w2) := Promise_all js' w1 in
        match p, ps with
        | Fulfilled a, Fulfilled l => (Fulfilled (a :: l), w2)
        | _, _ => (Rejected, w2)
        end
    end.

Declare Scope job_scope.
Delimit Scope job_scope with job.
Notation "x <- c1 ;; c2" := (bind c1 (fun x => c2))
  (at level 100, c1 at next level, right associativity) : job_scope.
Notation "c1 ;; c2" := (bind c1 (fun _ => c2))
  (at level 100, right associativity) : job_scope.
Open Scope job_scope.

Definition emit (e : Event) (w : World) : World :=
  mkWorld (caches w) (trace w ++ [e]).

Definition set_caches (cs : CacheStorage) (w : World) : World :=
  mkWorld cs (trace w).

(** The network: what [fetch] of a request settles to ([None]: it
    rejects). *)
Definition Network := Request -> option Response.

Definition fetch (net : Network) (r : Request) : Job Response :=
  fun w =>
    match net r with
    | Some resp => (Fulfilled resp, emit (EvFetch r) w)
    | None => (Rejected, emit (EvFetch r) w)
    end.

Definition caches_match (r : Request) : Job (option Response) :=
  fun w => (Fulfilled (Storage.match_ (caches w) r), emit (EvCachesMatch r) w).

(** [caches.open(name)]; the cache it resolves to is known by its name. *)
Definition caches_open (name : string) : Job string :=
  fun w => (Fulfilled name,
            emit (EvCachesOpen name) (set_caches (Storage.open (caches w) name) w)).

Definition caches_keys : Job (list string) :=
  fun w => (Fulfilled (Storage.keys (caches w)), emit EvCachesKeys w).

(** [caches.delete(name)] resolves to whether a cache was deleted; [fails]
    tells for which names the deletion rejects instead. *)
Definition caches_delete (fails : string -> bool) (name : string) : Job bool :=
  fun w =>
    if fails name then (Rejected, emit (EvCachesDelete name) w)
    else (Fulfilled (Storage.has (caches w) name),
          emit (EvCachesDelete name)
               (set_caches (Storage.delete (caches w) name) w)).

Definition cache_put (cache : string) (r : Request) (resp : Response) : Job unit :=
  fun w => (Fulfilled tt,
            emit (EvCachePut cache r resp)
                 (set_caches (Storage.update (caches w) cache
                                (fun c => Cache.put c r resp)) w)).

Definition cache_keys (cache : string) : Job (list Request) :=
  fun w => (Fulfilled (Cache.keys (Storage.entries (caches w) cache)),
            emit (EvCacheKeys cache) w).

Definition cache_delete (cache : string) (r : Request) : Job bool :=
  fun w => (Fulfilled (Cache.has (Storage.entries (caches w) cache) r),
            emit (EvCacheDelete cache r)
                 (set_caches (Storage.update (caches w) cache
                                (fun c => Cache.delete c r)) w)).


Definition clients_claim : Job unit :=
  fun w => (Fulfilled tt, emit EvClientsClaim w).





(** ** sw.js *)

Definition CACHE_NAME : string := "folio-v1.0".

Definition RUNTIME_CACHE_ORIGINS : list string :=
  [ "https://fonts.googleapis.com";
    "https://fonts.gstatic.com";
    "https://www.gstatic.com/firebasejs" ].

Definition IMAGE_CACHE : string := "folio-images-v1".
Definition IMAGE_CACHE_LIMIT : nat := 100.


(** The filter of the [activate] listener:
    [k !== CACHE_NAME && k !== IMAGE_CACHE]. *)
Definition stale (k : string) : bool :=
  negb (String.eqb k CACHE_NAME) && negb (String.eqb k IMAGE_CACHE).

(** The [activate] listener. *)
Definition activate (fails : string -> bool) : Job unit :=
  keys <- caches_keys ;;
  Promise_all (map (caches_delete fails) (filter stale keys)) ;;
  clients_claim.

(** What the page sees of an intercepted request: the listener returned
    without [event.respondWith] (the browser performs the request itself), or
    the promise given to [respondWith] settled to a response, or it rejected
    or resolved to [undefined] (a network error). *)
Inductive Outcome :=
| PassThrough
| Respond (resp : Response)
| NetworkError.

Definition respondWith (j : Job (option Response)) (w : World) : Outcome * World :=
  match j w with
  | (Fulfilled (Some resp), w') => (Respond resp, w')
  | (Fulfilled None, w') => (NetworkError, w')
  | (Rejected, w') => (NetworkError, w')
  end.

(** The routes of the [fetch] listener, in the order of its guards. *)
Inductive Strategy :=
| Bypass
| ImageCache
| AllowlistedThirdParty
| SameOriginNetworkFirst.

(** The hosts of line 36: authentication, document database, identity
    toolkit, token refresh. *)
Definition bypass_marker (hostname : string) : bool :=
  includes hostname "firebaseauth" || includes hostname "firestore" ||
  includes hostname "googleapis.com/identitytoolkit" ||
  includes hostname "securetoken".

(** The guards of the [fetch] listener (lines 35-39, 59 and 75), first
    match wins; a request that passes none of them is not intercepted. *)
Definition classify (location_origin : string) (request : Request) : Strategy :=
  let u := URL.parse (url request) in
  if negb (String.eqb (method request) "GET") then Bypass
  else if bypass_marker (URL.hostname u) then Bypass
  else if includes (URL.hostname u) "api.unsplash.com" then Bypass
  else if includes (URL.hostname u) "images.unsplash.com" then ImageCache
  else if existsb (fun origin => startsWith (url request) origin)
                  RUNTIME_CACHE_ORIGINS then AllowlistedThirdParty
  else if String.eqb (URL.origin u) location_origin then SameOriginNetworkFirst
  else Bypass.

(** [cache.put] is called without [await] in the image route, so the source
    does not order its effect with the enumeration that follows: the entry
    lands in the store either first, in the order of the calls, or last, once
    the eviction check is over (the body of the clone is read before the
    entry is written). *)
Inductive Landing :=
| PutLandsFirst
| PutLandsLast.

(** The write-behind of the image route: store the clone, check the
    bound. *)
Definition store_image (landing : Landing) (request : Request) (clone : Response)
  : Job unit :=
  cache <- caches_open IMAGE_CACHE ;;
  match landing with
  | PutLandsFirst => cache_put cache request clone
  | PutLandsLast => ret tt
  end ;;
  keys <- cache_keys cache ;;
  (if (IMAGE_CACHE_LIMIT <? length keys)%nat
   then match keys with
        | k0 :: _ => cache_delete cache k0 ;; ret tt
        | [] => ret tt
        end
   else ret tt) ;;
  match landing with
  | PutLandsFirst => ret tt
  | PutLandsLast => cache_put cache request clone
  end.

(** The write-behind of the two other routes. *)
Definition store_current (request : Request) (clone : Response) : Job unit :=
  cache <- caches_open CACHE_NAME ;;
  cache_put cache request clone.

(** [fetch(request).then(response => { if (response.ok) {...} return response })] *)
Definition fetch_and_store (net : Network) (request : Request)
    (store : Request -> Response -> Job unit) : Job (option Response) :=
  response <- fetch net request ;;
  (if ok response then detach (store request response) else ret tt) ;;
  ret (Some response).

Definition cache_first (net : Network) (request : Request)
    (store : Request -> Response -> Job unit) : Job (option Response) :=
  cached <- caches_match request ;;
  match cached with
  | Some snapshot => ret (Some snapshot)
  | None => fetch_and_store net request store
  end.

Definition network_first (net : Network) (request : Request) : Job (option Response) :=
  catch (fetch_and_store net request store_current) (caches_match request).

(** The [fetch] listener: each route is the body of the corresponding
    [event.respondWith]. *)
Definition fetch_listener (landing : Landing) (location_origin : string)
    (net : Network) (request : Request) (w : World) : Outcome * World :=
  match classify location_origin request with
  | Bypass => (PassThrough, w)
  | ImageCache => respondWith (cache_first net request (store_image landing)) w
  | AllowlistedThirdParty => respondWith (cache_first net request store_current) w
  | SameOriginNetworkFirst => respondWith (network_first net request) w
  end.

(** Requests handled one after the other, each to completion, against one
    network. *)
Fixpoint run_fetches (landing : Landing) (location_origin : string)
    (net : Network) (requests : list Request) (w : World) : World :=
  match requests with
  | [] => w
  | r :: requests' =>
      run_fetches landing location_origin net requests'
                  (snd (fetch_listener landing location_origin net r w))
  end.

(** The requests deleted from cache [name], in the order of the trace. *)
Fixpoint deletions (name : string) (t : list Event) : list Request :=
  match t with
  | [] => []
  | EvCacheDelete n r :: t' =>
      if String.eqb n name then r :: deletions name t' else deletions name t'
  | _ :: t' => deletions name t'
  end.

Definition is_put (e : Event) : bool :=
  match e with EvCachePut _ _ _ => true | _ => false end.

(** The store after one deletion of a rollover: unchanged when the deletion
    rejects. *)
Definition delete_unless (fails : string -> bool) (cs : CacheStorage) (k : string)
  : CacheStorage :=
  if fails k then cs else Storage.delete cs k.

Definition is_fulfilled {A} (p : Promise A) : bool :=
  match p with Fulfilled _ => true | Rejected => false end.


(** The requests fetched from the network, in the order of the trace. *)
Fixpoint fetched (t : list Event) : list Request :=
  match t with
  | [] => []
  | EvFetch r :: t' => r :: fetched t'
  | _ :: t' => fetched t'
  end.

(** First in, first out, on the keys of a bounded cache: the keys after
    [r] is written, and the keys evicted by that write. *)
Definition fifo_step (ks : list Request) (r : Request)
  : list Request * list Request :=
  if (IMAGE_CACHE_LIMIT <? length (ks ++ [r]))%nat
  then (tl (ks ++ [r]), firstn 1 (ks ++ [r]))
  else (ks ++ [r], []).

(** ** Sample data

    A deployment, two networks, 101 distinct photographs, and stores holding
    a generation of another version of the worker next to the live ones. *)

Definition app_origin : string := "https://matt-10013.github.io".

Definition net_ok : Network := fun r => Some (mkResponse 200 (url r)).
Definition offline : Network := fun _ => None.
Definition net_404 : Network := fun r => Some (mkResponse 404 "Not Found").

Definition photo (n : nat) : Request :=
  GET ("https://images.unsplash.com/photo-"
       ++ NilEmpty.string_of_uint (Nat.to_uint n))%string.

Definition photos : list Request := map photo (seq 1 101).
Definition more_photos : list Request := map photo (seq 1 150).

Definition lookalike_image : Request :=
  GET "https://images.unsplash.com.attacker.example/p.jpg".
Definition lookalike_font : Request :=
  GET "https://fonts.googleapis.com.attacker.example/x".

Definition shell_request : Request := GET "https://matt-10013.github.io/folio/app.js".
Definition font_request : Request := GET "https://fonts.gstatic.com/s/inter.woff2".

Definition old_snapshot : Response := mkResponse 200 "old".
Definition new_snapshot : Response := mkResponse 200 "new".


(** Version 1.1 is being provisioned next to the running version 1.0. *)
Definition store_with_next_version : CacheStorage :=
  [ (CACHE_NAME, []);
    (IMAGE_CACHE, []);
    ("folio-v1.1", [(shell_request, new_snapshot)]) ].


Definition store_with_two_stale : CacheStorage :=
  [ ("folio-v0.8", [(shell_request, old_snapshot)]);
    ("folio-v0.9", [(shell_request, old_snapshot)]);
    (CACHE_NAME, [(shell_request, new_snapshot)]);
    (IMAGE_CACHE, [(photo 1, new_snapshot)]) ].

Definition is_ImageCache (s : Strategy) : bool :=
  match s with ImageCache => true | _ => false end.

Fixpoint nodupb (l : list Request) : bool :=
  match l with
  | [] => true
  | r :: l' => negb (existsb (Request_eqb r) l') && nodupb l'
  end.

(** ** Vocabulary of the further properties *)

(** Whether the character [c] occurs in [s]. *)
Fixpoint mentions (c : ascii) (s : string) : bool :=
  match s with
  | EmptyString => false
  | String c' s' => Ascii.eqb c' c || mentions c s'
  end.

(** The generation a route writes to. *)
Definition target (s : Strategy) : option string :=
  match s with
  | Bypass => None
  | ImageCache => Some IMAGE_CACHE
  | AllowlistedThirdParty => Some CACHE_NAME
  | SameOriginNetworkFirst => Some CACHE_NAME
  end.

(** A generation that a rollover keeps. *)
Definition live (g : string * Cache) : bool := negb (stale (fst g)).






(** No generation called [name] holds the request. *)
Definition not_held_in (name : string) (r : Request) (cs : CacheStorage) : Prop :=
  forall g, In g cs -> fst g = name -> Cache.match_ (snd g) r = None.

(** * Properties *)

(** ** Requests and strings *)

Lemma Request_eqb_eq (a b : Request) : Request_eqb a b = true <-> a = b.
Proof.
  unfold Request_eqb. rewrite andb_true_iff, !String.eqb_eq.
  destruct a, b; simpl; split.
  - intros [-> ->]; reflexivity.
  - intros H; inversion H; auto.
Qed.

Lemma Request_eqb_refl (a : Request) : Request_eqb a a = true.
Proof. apply Request_eqb_eq; reflexivity. Qed.

Lemma Request_eqb_neq (a b : Request) : Request_eqb a b = false <-> a <> b.
Proof.
  rewrite <- Request_eqb_eq. destruct (Request_eqb a b); split; congruence.
Qed.

Lemma Request_eqb_sym (a b : Request) : Request_eqb a b = Request_eqb b a.
Proof.
  unfold Request_eqb. rewrite (String.eqb_sym (method a)), (String.eqb_sym (url a)).
  reflexivity.
Qed.

(** ** The guards of the fetch listener *)

Lemma classify_not_GET origin request :
  method request <> "GET" -> classify origin request = Bypass.
Proof.
  intros H. unfold classify.
  apply String.eqb_neq in H. rewrite H. reflexivity.
Qed.

Lemma classify_bypass_marker origin request :
  bypass_marker (URL.hostname (URL.parse (url request))) = true ->
  classify origin request = Bypass.
Proof.
  intros H. unfold classify. rewrite H.
  destruct (negb _); reflexivity.
Qed.

Lemma classify_image_api origin request :
  includes (URL.hostname (URL.parse (url request))) "api.unsplash.com" = true ->
  classify origin request = Bypass.
Proof.
  intros H. unfold classify. rewrite H.
  destruct (negb _); [reflexivity|]. destruct (bypass_marker _); reflexivity.
Qed.

Lemma fetch_listener_bypass landing origin net request w :
  classify origin request = Bypass ->
  fetch_listener landing origin net request w = (PassThrough, w).
Proof. intros H. unfold fetch_listener. rewrite H. reflexivity. Qed.

(** C6: a request that is not a GET, or whose host name contains one of the
    five bypass markers, is routed to no caching strategy; the listener
    returns without [respondWith] and leaves the world as it found it: no
    cache lookup, no store write, no fetch of its own. *)
Theorem C6_bypass_untouched landing origin net request w :
  method request <> "GET" \/
  includes (URL.hostname (URL.parse (url request))) "firebaseauth" = true \/
  includes (URL.hostname (URL.parse (url request))) "firestore" = true \/
  includes (URL.hostname (URL.parse (url request))) "googleapis.com/identitytoolkit" = true \/
  includes (URL.hostname (URL.parse (url request))) "securetoken" = true \/
  includes (URL.hostname (URL.parse (url request))) "api.unsplash.com" = true ->
  classify origin request = Bypass /\
  fetch_listener landing origin net request w = (PassThrough, w).
Proof.
  intros H.
  assert (Hc : classify origin request = Bypass).
  { destruct H as [H|[H|[H|[H|[H|H]]]]].
    - now apply classify_not_GET.
    - apply classify_bypass_marker. unfold bypass_marker. rewrite H. reflexivity.
    - apply classify_bypass_marker. unfold bypass_marker. rewrite H.
      now rewrite !orb_true_r.
    - apply classify_bypass_marker. unfold bypass_marker. rewrite H.
      now rewrite !orb_true_r.
    - apply classify_bypass_marker. unfold bypass_marker. rewrite H.
      now rewrite !orb_true_r.
    - now apply classify_image_api. }
  split; [exact Hc | now apply fetch_listener_bypass].
Qed.

(** ** [caches.match] *)


Lemma Storage_match_none cs r :
  Storage.match_ cs r = None <->
  (forall g, In g cs -> Cache.match_ (snd g) r = None).
Proof.
  induction cs as [|g cs IH]; simpl.
  - split; [intros _ g [] | reflexivity].
  - destruct (Cache.match_ (snd g) r) eqn:E.
    + split; [discriminate|]. intros H. specialize (H g (or_introl eq_refl)).
      congruence.
    + rewrite IH. split.
      * intros H g' [<-|Hg']; auto.
      * intros H g' Hg'. apply H. now right.
Qed.

(** ** The strategies, case by case *)

Section Strategies.

Variable net : Network.
Variable request : Request.
Variable store : Request -> Response -> Job unit.

Lemma cache_first_hit w snapshot :
  Storage.match_ (caches w) request = Some snapshot ->
  respondWith (cache_first net request store) w
  = (Respond snapshot, emit (EvCachesMatch request) w).
Proof.
  intros H. unfold respondWith, cache_first, bind, caches_match.
  rewrite H. reflexivity.
Qed.

Lemma cache_first_miss_rejected w :
  Storage.match_ (caches w) request = None ->
  net request = None ->
  respondWith (cache_first net request store) w
  = (NetworkError, emit (EvFetch request) (emit (EvCachesMatch request) w)).
Proof.
  intros H Hn.
  unfold respondWith, cache_first, fetch_and_store, bind, caches_match, fetch.
  rewrite H, Hn. reflexivity.
Qed.

Lemma cache_first_miss_not_ok w resp :
  Storage.match_ (caches w) request = None ->
  net request = Some resp -> ok resp = false ->
  respondWith (cache_first net request store) w
  = (Respond resp, emit (EvFetch request) (emit (EvCachesMatch request) w)).
Proof.
  intros H Hn Hok.
  unfold respondWith, cache_first, fetch_and_store, bind, caches_match, fetch.
  rewrite H, Hn, Hok. reflexivity.
Qed.

Lemma cache_first_miss_ok w resp :
  Storage.match_ (caches w) request = None ->
  net request = Some resp -> ok resp = true ->
  respondWith (cache_first net request store) w
  = (Respond resp,
     snd (store request resp
            (emit (EvFetch request) (emit (EvCachesMatch request) w)))).
Proof.
  intros H Hn Hok.
  unfold respondWith, cache_first, fetch_and_store, bind, caches_match, fetch,
    detach.
  rewrite H, Hn, Hok. reflexivity.
Qed.

Lemma network_first_rejected w :
  net request = None ->
  respondWith (network_first net request) w
  = (match Storage.match_ (caches w) request with
     | Some snapshot => Respond snapshot
     | None => NetworkError
     end,
     emit (EvCachesMatch request) (emit (EvFetch request) w)).
Proof.
  intros Hn.
  unfold respondWith, network_first, catch, fetch_and_store, bind,
    caches_match, fetch.
  rewrite Hn. simpl. destruct (Storage.match_ (caches w) request); reflexivity.
Qed.

Lemma network_first_not_ok w resp :
  net request = Some resp -> ok resp = false ->
  respondWith (network_first net request) w
  = (Respond resp, emit (EvFetch request) w).
Proof.
  intros Hn Hok.
  unfold respondWith, network_first, catch, fetch_and_store, bind, fetch.
  rewrite Hn, Hok. reflexivity.
Qed.

Lemma network_first_ok w resp :
  net request = Some resp -> ok resp = true ->
  respondWith (network_first net request) w
  = (Respond resp,
     snd (store_current request resp (emit (EvFetch request) w))).
Proof.
  intros Hn Hok.
  unfold respondWith, network_first, catch, fetch_and_store, bind, fetch,
    detach.
  rewrite Hn, Hok. reflexivity.
Qed.

End Strategies.


(** ** The write-behinds *)

Lemma store_current_eq r resp w :
  store_current r resp w
  = (Fulfilled tt,
     mkWorld (Storage.update (Storage.open (caches w) CACHE_NAME) CACHE_NAME
                (fun c => Cache.put c r resp))
             (trace w ++ [EvCachesOpen CACHE_NAME; EvCachePut CACHE_NAME r resp])).
Proof.
  unfold store_current, bind, caches_open, cache_put, emit, set_caches. simpl.
  now rewrite <- app_assoc.
Qed.

Lemma store_image_eq r resp w :
  let cs1 := Storage.update (Storage.open (caches w) IMAGE_CACHE) IMAGE_CACHE
               (fun c => Cache.put c r resp) in
  let keys := Cache.keys (Storage.entries cs1 IMAGE_CACHE) in
  let t1 := trace w ++ [EvCachesOpen IMAGE_CACHE; EvCachePut IMAGE_CACHE r resp;
                        EvCacheKeys IMAGE_CACHE] in
  snd (store_image PutLandsFirst r resp w)
  = match keys with
    | k0 :: _ =>
        if (IMAGE_CACHE_LIMIT <? length keys)%nat
        then mkWorld (Storage.update cs1 IMAGE_CACHE (fun c => Cache.delete c k0))
                     (t1 ++ [EvCacheDelete IMAGE_CACHE k0])
        else mkWorld cs1 t1
    | [] => mkWorld cs1 t1
    end.
Proof.
  intros cs1 keys t1.
  unfold store_image, bind, caches_open, cache_put, cache_keys, cache_delete,
    ret, emit, set_caches. cbn [caches trace fst snd].
  fold cs1. fold keys.
  assert (Ht : ((trace w ++ [EvCachesOpen IMAGE_CACHE]) ++
                [EvCachePut IMAGE_CACHE r resp]) ++ [EvCacheKeys IMAGE_CACHE] = t1).
  { unfold t1. now rewrite <- !app_assoc. }
  rewrite Ht.
  destruct keys as [|k0 keys'].
  - destruct (IMAGE_CACHE_LIMIT <? length (@nil Request))%nat; reflexivity.
  - destruct (IMAGE_CACHE_LIMIT <? length (k0 :: keys'))%nat; reflexivity.
Qed.

Lemma store_image_last_eq r resp w :
  let cs0 := Storage.open (caches w) IMAGE_CACHE in
  let keys := Cache.keys (Storage.entries cs0 IMAGE_CACHE) in
  let t1 := trace w ++ [EvCachesOpen IMAGE_CACHE; EvCacheKeys IMAGE_CACHE] in
  snd (store_image PutLandsLast r resp w)
  = match keys with
    | k0 :: _ =>
        if (IMAGE_CACHE_LIMIT <? length keys)%nat
        then mkWorld (Storage.update
                        (Storage.update cs0 IMAGE_CACHE (fun c => Cache.delete c k0))
                        IMAGE_CACHE (fun c => Cache.put c r resp))
                     (t1 ++ [EvCacheDelete IMAGE_CACHE k0;
                             EvCachePut IMAGE_CACHE r resp])
        else mkWorld (Storage.update cs0 IMAGE_CACHE (fun c => Cache.put c r resp))
                     (t1 ++ [EvCachePut IMAGE_CACHE r resp])
    | [] => mkWorld (Storage.update cs0 IMAGE_CACHE (fun c => Cache.put c r resp))
                    (t1 ++ [EvCachePut IMAGE_CACHE r resp])
    end.
Proof.
  intros cs0 keys t1.
  unfold store_image, bind, caches_open, cache_put, cache_keys, cache_delete,
    ret, emit, set_caches. cbn [caches trace fst snd].
  fold cs0. fold keys.
  assert (Ht : (trace w ++ [EvCachesOpen IMAGE_CACHE]) ++ [EvCacheKeys IMAGE_CACHE]
               = t1).
  { unfold t1. now rewrite <- !app_assoc. }
  rewrite Ht.
  destruct keys as [|k0 keys'].
  - destruct (IMAGE_CACHE_LIMIT <? length (@nil Request))%nat; reflexivity.
  - destruct (IMAGE_CACHE_LIMIT <? length (k0 :: keys'))%nat; cbn [caches trace];
      rewrite <- ?app_assoc; reflexivity.
Qed.






(** What the two write-behinds put in the store: the response they were
    given, and nothing else. *)
Lemma store_current_puts r resp w name q snapshot :
  In (EvCachePut name q snapshot) (trace (snd (store_current r resp w))) ->
  In (EvCachePut name q snapshot) (trace w) \/ (q = r /\ snapshot = resp).
Proof.
  rewrite store_current_eq. simpl. rewrite in_app_iff. simpl.
  intros [H|[H|[H|[]]]]; auto; try discriminate.
  inversion H; auto.
Qed.

Lemma store_image_puts landing r resp w name q snapshot :
  In (EvCachePut name q snapshot) (trace (snd (store_image landing r resp w))) ->
  In (EvCachePut name q snapshot) (trace w) \/ (q = r /\ snapshot = resp).
Proof.
  destruct landing.
  - rewrite store_image_eq. cbv zeta.
    assert (Ht : In (EvCachePut name q snapshot)
                   (trace w ++ [EvCachesOpen IMAGE_CACHE;
                                EvCachePut IMAGE_CACHE r resp;
                                EvCacheKeys IMAGE_CACHE]) ->
                 In (EvCachePut name q snapshot) (trace w) \/
                 (q = r /\ snapshot = resp)).
    { rewrite in_app_iff. simpl. intros [H|[H|[H|[H|[]]]]]; auto; try discriminate.
      inversion H; auto. }
    destruct (Cache.keys _) as [|k0 ks]; [exact Ht|].
    destruct (IMAGE_CACHE_LIMIT <? _)%nat; [|exact Ht].
    simpl. rewrite in_app_iff. simpl. intros [H|[H|[]]]; auto; discriminate.
  - rewrite store_image_last_eq. cbv zeta.
    destruct (Cache.keys _) as [|k0 ks];
      [|destruct (IMAGE_CACHE_LIMIT <? _)%nat];
      cbn [trace]; intros H;
      repeat (rewrite in_app_iff in H; simpl in H);
      repeat (destruct H as [H|H]); auto; try discriminate; try contradiction;
      inversion H; auto.
Qed.

(** C4: whatever the route, a response whose status is not ok is handed to
    the caller as it is and the store is left as it was, with no [put]
    issued; and every snapshot the listener ever puts in a generation is the
    network response of the request, with an ok status. *)
Theorem C4_only_ok_responses_stored landing origin net request cs :
  (forall resp,
      net request = Some resp -> ok resp = false ->
      In (EvFetch request)
         (trace (snd (fetch_listener landing origin net request (mkWorld cs []))))  ->
      fst (fetch_listener landing origin net request (mkWorld cs [])) = Respond resp /\
      caches (snd (fetch_listener landing origin net request (mkWorld cs []))) = cs /\
      forallb (fun e => negb (is_put e))
        (trace (snd (fetch_listener landing origin net request (mkWorld cs [])))) = true) /\
  (forall name q snapshot,
      In (EvCachePut name q snapshot)
         (trace (snd (fetch_listener landing origin net request (mkWorld cs [])))) ->
      q = request /\ net request = Some snapshot /\ ok snapshot = true).
Proof.
  unfold fetch_listener.
  destruct (classify origin request) eqn:Hc.
  - (* bypass *)
    split; intros; simpl in *; contradiction.
  - (* image cache *)
    destruct (Storage.match_ cs request) as [hit|] eqn:Hm.
    + rewrite (cache_first_hit net request (store_image landing) (mkWorld cs []) hit Hm).
      split; simpl.
      * intros resp _ _ [H|[]]; discriminate.
      * intros name q snapshot [H|[]]; discriminate.
    + destruct (net request) as [resp|] eqn:Hn.
      * destruct (ok resp) eqn:Hok.
        -- rewrite (cache_first_miss_ok net request (store_image landing) (mkWorld cs []) resp Hm Hn Hok).
           split; [intros resp' E; inversion E; subst; congruence|].
           intros name q snapshot H. apply store_image_puts in H.
           destruct H as [H|[-> ->]]; auto.
           simpl in H. destruct H as [H|[H|[]]]; discriminate.
        -- rewrite (cache_first_miss_not_ok net request (store_image landing) (mkWorld cs []) resp Hm Hn Hok).
           split; simpl.
           ++ intros resp' E _ _. inversion E; subst. auto.
           ++ intros name q snapshot [H|[H|[]]]; discriminate.
      * rewrite (cache_first_miss_rejected net request (store_image landing) (mkWorld cs []) Hm Hn).
        split; simpl.
        -- intros resp; discriminate.
        -- intros name q snapshot [H|[H|[]]]; discriminate.
  - (* allowlisted third party *)
    destruct (Storage.match_ cs request) as [hit|] eqn:Hm.
    + rewrite (cache_first_hit net request store_current (mkWorld cs []) hit Hm).
      split; simpl.
      * intros resp _ _ [H|[]]; discriminate.
      * intros name q snapshot [H|[]]; discriminate.
    + destruct (net request) as [resp|] eqn:Hn.
      * destruct (ok resp) eqn:Hok.
        -- rewrite (cache_first_miss_ok net request store_current (mkWorld cs []) resp Hm Hn Hok).
           split; [intros resp' E; inversion E; subst; congruence|].
           intros name q snapshot H. apply store_current_puts in H.
           destruct H as [H|[-> ->]]; auto.
           simpl in H. destruct H as [H|[H|[]]]; discriminate.
        -- rewrite (cache_first_miss_not_ok net request store_current (mkWorld cs []) resp Hm Hn Hok).
           split; simpl.
           ++ intros resp' E _ _. inversion E; subst. auto.
           ++ intros name q snapshot [H|[H|[]]]; discriminate.
      * rewrite (cache_first_miss_rejected net request store_current (mkWorld cs []) Hm Hn).
        split; simpl.
        -- intros resp; discriminate.
        -- intros name q snapshot [H|[H|[]]]; discriminate.
  - (* same origin, network first *)
    destruct (net request) as [resp|] eqn:Hn.
    + destruct (ok resp) eqn:Hok.
      * rewrite (network_first_ok net request (mkWorld cs []) resp Hn Hok).
        split; [intros resp' E; inversion E; subst; congruence|].
        intros name q snapshot H. apply store_current_puts in H.
        destruct H as [H|[-> ->]]; auto.
        simpl in H. destruct H as [H|[]]; discriminate.
      * rewrite (network_first_not_ok net request (mkWorld cs []) resp Hn Hok).
        split; simpl.
        -- intros resp' E _ _. inversion E; subst. auto.
        -- intros name q snapshot [H|[]]; discriminate.
    + rewrite (network_first_rejected net request (mkWorld cs []) Hn).
      split; simpl.
      * intros resp; discriminate.
      * intros name q snapshot [H|[H|[]]]; discriminate.
Qed.



(** ** Rollover *)

Lemma Storage_lookup_delete cs k name :
  Storage.lookup (Storage.delete cs k) name
  = if String.eqb name k then None else Storage.lookup cs name.
Proof.
  unfold Storage.lookup, Storage.delete, Storage.named.
  induction cs as [|[n c] cs IH]; simpl.
  - now destruct (String.eqb name k).
  - destruct (String.eqb n k) eqn:Enk; simpl.
    + apply String.eqb_eq in Enk. subst n.
      destruct (String.eqb k name) eqn:Ekn.
      * apply String.eqb_eq in Ekn. subst. now rewrite String.eqb_refl in *.
      * exact IH.
    + destruct (String.eqb n name) eqn:Enn.
      * apply String.eqb_eq in Enn. subst n.
        now rewrite Enk.
      * exact IH.
Qed.

Lemma Storage_lookup_keys cs name :
  Storage.lookup cs name <> None -> In name (Storage.keys cs).
Proof.
  unfold Storage.lookup, Storage.keys, Storage.named.
  induction cs as [|[n c] cs IH]; simpl; [congruence|].
  destruct (String.eqb n name) eqn:E.
  - apply String.eqb_eq in E. auto.
  - auto.
Qed.

Lemma Promise_all_deletes fails ks : forall w,
  caches (snd (Promise_all (map (caches_delete fails) ks) w))
  = fold_left (delete_unless fails) ks (caches w) /\
  trace (snd (Promise_all (map (caches_delete fails) ks) w))
  = trace w ++ map EvCachesDelete ks /\
  is_fulfilled (fst (Promise_all (map (caches_delete fails) ks) w))
  = forallb (fun k => negb (fails k)) ks.
Proof.
  induction ks as [|k ks IH]; intros w; simpl.
  - now rewrite app_nil_r.
  - destruct (caches_delete fails k w) as [p w1] eqn:E.
    specialize (IH w1).
    destruct (Promise_all (map (caches_delete fails) ks) w1) as [ps w2].
    simpl in IH. destruct IH as (Hc & Ht & Hp).
    unfold caches_delete in E. unfold delete_unless at 2.
    destruct (fails k) eqn:Ek; inversion E; subst p w1; clear E; simpl in *.
    + split; [exact Hc|]. split; [|reflexivity].
      now rewrite Ht, <- app_assoc.
    + destruct ps; simpl in *;
        (split; [exact Hc|]; split; [now rewrite Ht, <- app_assoc | exact Hp]).
Qed.

Lemma lookup_fold_delete fails ks : forall cs name,
  Storage.lookup (fold_left (delete_unless fails) ks cs) name
  = if existsb (fun k => String.eqb name k && negb (fails k)) ks
    then None else Storage.lookup cs name.
Proof.
  induction ks as [|k ks IH]; intros cs name; simpl; [reflexivity|].
  rewrite IH. unfold delete_unless.
  destruct (fails k) eqn:Ek; simpl.
  - now rewrite andb_false_r.
  - rewrite andb_true_r, Storage_lookup_delete.
    destruct (String.eqb name k); simpl; [|reflexivity].
    now destruct (existsb _ ks).
Qed.

(** What [activate] leaves behind. *)
Lemma activate_eq fails w :
  let ks := filter stale (Storage.keys (caches w)) in
  let cs' := fold_left (delete_unless fails) ks (caches w) in
  let t' := trace w ++ [EvCachesKeys] ++ map EvCachesDelete ks in
  activate fails w
  = if forallb (fun k => negb (fails k)) ks
    then (Fulfilled tt, mkWorld cs' (t' ++ [EvClientsClaim]))
    else (Rejected, mkWorld cs' t').
Proof.
  intros ks cs' t'. unfold activate, bind, caches_keys, clients_claim.
  fold ks.
  destruct (Promise_all_deletes fails ks (emit EvCachesKeys w)) as (Hc & Ht & Hp).
  destruct (Promise_all _ (emit EvCachesKeys w)) as [p w2]. simpl in *.
  rewrite <- Hp. fold cs' in Hc.
  assert (Ht' : trace w2 = t') by (unfold t'; now rewrite Ht, <- app_assoc).
  destruct w2 as [c2 t2]; simpl in *. subst c2 t2.
  destruct p; simpl; unfold emit; simpl; rewrite Ht'; reflexivity.
Qed.


Lemma activate_stale_gone fails cs name :
  stale name = true -> fails name = false ->
  Storage.lookup
    (fold_left (delete_unless fails) (filter stale (Storage.keys cs)) cs) name
  = None.
Proof.
  intros Hs Hf. rewrite lookup_fold_delete.
  destruct (existsb _ _) eqn:E; [reflexivity|].
  destruct (Storage.lookup cs name) eqn:El; [|reflexivity].
  assert (Hin : In name (filter stale (Storage.keys cs))).
  { apply filter_In. split; [|exact Hs].
    apply Storage_lookup_keys. congruence. }
  assert (existsb (fun k => String.eqb name k && negb (fails k))
                  (filter stale (Storage.keys cs)) = true).
  { apply existsb_exists. exists name. split; [exact Hin|].
    now rewrite String.eqb_refl, Hf. }
  congruence.
Qed.



(** C9, amended: every stale generation has its deletion attempted, and a
    deletion that rejects does not keep the others from deleting their
    generation; but the rollover as a whole is [Promise.all] of the
    deletions: it completes, and claims the clients, exactly when no deletion
    rejects, and one rejected deletion rejects it. *)
Theorem C9_deletions_independent_failure_rejects fails cs :
  (forall name, In name (Storage.keys cs) -> stale name = true ->
                In (EvCachesDelete name)
                   (trace (snd (activate fails (mkWorld cs []))))) /\
  (forall name, stale name = true -> fails name = false ->
                Storage.lookup (caches (snd (activate fails (mkWorld cs [])))) name
                = None) /\
  (forall name, fails name = true ->
                Storage.lookup (caches (snd (activate fails (mkWorld cs [])))) name
                = Storage.lookup cs name) /\
  ((exists name, In name (Storage.keys cs) /\ stale name = true /\
                 fails name = true) ->
   fst (activate fails (mkWorld cs [])) = Rejected /\
   ~ In EvClientsClaim (trace (snd (activate fails (mkWorld cs []))))) /\
  ((forall name, In name (Storage.keys cs) -> stale name = true ->
                 fails name = false) ->
   fst (activate fails (mkWorld cs [])) = Fulfilled tt /\
   In EvClientsClaim (trace (snd (activate fails (mkWorld cs []))))).
Proof.
  rewrite activate_eq. cbv zeta. cbn [caches trace app].
  set (ks := filter stale (Storage.keys cs)).
  assert (Hattempt : forall name, In name (Storage.keys cs) -> stale name = true ->
                                  In (EvCachesDelete name) (map EvCachesDelete ks)).
  { intros name Hin Hs. apply in_map. apply filter_In. auto. }
  assert (Hgone : forall name, stale name = true -> fails name = false ->
                    Storage.lookup (fold_left (delete_unless fails) ks cs) name = None).
  { intros. now apply activate_stale_gone. }
  assert (Hkept : forall name, fails name = true ->
                    Storage.lookup (fold_left (delete_unless fails) ks cs) name
                    = Storage.lookup cs name).
  { intros name Hf. rewrite lookup_fold_delete.
    destruct (existsb _ ks) eqn:E; [|reflexivity].
    apply existsb_exists in E. destruct E as (k & _ & Hk).
    apply andb_true_iff in Hk. destruct Hk as [Hk Hk'].
    apply String.eqb_eq in Hk. subst k. rewrite Hf in Hk'. discriminate. }
  assert (Hnoclaim : ~ In EvClientsClaim (EvCachesKeys :: map EvCachesDelete ks)).
  { intros [H|H]; [discriminate|].
    apply in_map_iff in H. destruct H as (k & Hk & _). discriminate. }
  destruct (forallb (fun k => negb (fails k)) ks) eqn:Hall; cbn [fst snd caches trace].
  - repeat split; auto.
    + intros name Hin Hs. right. apply in_app_iff. left. now apply Hattempt.
    + destruct H as (name & Hin & Hs & Hf).
      rewrite forallb_forall in Hall.
      assert (In name ks) by (apply filter_In; auto).
      specialize (Hall name H). rewrite Hf in Hall. discriminate.
    + destruct H as (name & Hin & Hs & Hf).
      rewrite forallb_forall in Hall.
      assert (In name ks) by (apply filter_In; auto).
      specialize (Hall name H). rewrite Hf in Hall. discriminate.
    + right. apply in_app_iff. right. now left.
  - repeat split; auto.
    + intros name Hin Hs. right. now apply Hattempt.
    + exfalso. assert (forallb (fun k => negb (fails k)) ks = true); [|congruence].
      apply forallb_forall. intros k Hk. apply filter_In in Hk.
      destruct Hk as [Hin Hs]. now rewrite (H k Hin Hs).
    + exfalso. assert (forallb (fun k => negb (fails k)) ks = true); [|congruence].
      apply forallb_forall. intros k Hk. apply filter_In in Hk.
      destruct Hk as [Hin Hs]. now rewrite (H k Hin Hs).
Qed.

(** ** Provisioning *)






(** ** Generations under [open] and [update] *)

Lemma Storage_has_open cs name : Storage.has (Storage.open cs name) name = true.
Proof.
  unfold Storage.open. destruct (Storage.has cs name) eqn:E; [exact E|].
  unfold Storage.has. rewrite existsb_app. simpl.
  unfold Storage.named at 2. simpl. rewrite String.eqb_refl.
  now rewrite orb_true_r.
Qed.


Lemma Storage_lookup_has cs name :
  Storage.has cs name = false -> Storage.lookup cs name = None.
Proof.
  unfold Storage.has, Storage.lookup.
  induction cs as [|g cs IH]; simpl; [reflexivity|].
  destruct (Storage.named name g); simpl; [discriminate|exact IH].
Qed.

Lemma Storage_entries_open cs name name' :
  Storage.entries (Storage.open cs name) name' = Storage.entries cs name'.
Proof.
  unfold Storage.open. destruct (Storage.has cs name) eqn:E; [reflexivity|].
  unfold Storage.entries, Storage.lookup.
  induction cs as [|g cs IH]; simpl.
  - unfold Storage.named. simpl. now destruct (String.eqb name name').
  - simpl in E. apply orb_false_iff in E. destruct E as [_ E].
    destruct (Storage.named name' g); simpl; [reflexivity|]. now apply IH.
Qed.

Lemma Storage_entries_update cs name f :
  Storage.has cs name = true ->
  Storage.entries (Storage.update cs name f) name = f (Storage.entries cs name).
Proof.
  unfold Storage.has, Storage.entries, Storage.lookup, Storage.update,
    Storage.named.
  induction cs as [|[m c] cs IH]; simpl; [discriminate|].
  destruct (String.eqb m name) eqn:E; simpl.
  - rewrite E. reflexivity.
  - rewrite E. exact IH.
Qed.

Lemma Storage_entries_update_other cs name f name' :
  name' <> name ->
  Storage.entries (Storage.update cs name f) name' = Storage.entries cs name'.
Proof.
  intros Hne. unfold Storage.entries, Storage.lookup, Storage.update,
    Storage.named.
  induction cs as [|[m c] cs IH]; simpl; [reflexivity|].
  destruct (String.eqb m name) eqn:E; simpl.
  - apply String.eqb_eq in E. subst m.
    apply not_eq_sym, String.eqb_neq in Hne. rewrite Hne. exact IH.
  - destruct (String.eqb m name'); [reflexivity|exact IH].
Qed.



(** ** Entries of a cache *)

Lemma Cache_match_In c r :
  Cache.match_ c r = None <-> ~ In r (Cache.keys c).
Proof.
  unfold Cache.match_, Cache.keys.
  induction c as [|[k x] c IH]; simpl.
  - tauto.
  - unfold Cache.is_key at 1. simpl.
    destruct (Request_eqb k r) eqn:E; simpl.
    + apply Request_eqb_eq in E. split; [discriminate|]. intros H.
      exfalso. apply H. now left.
    + apply Request_eqb_neq in E. rewrite IH. tauto.
Qed.

Lemma Cache_delete_absent c r :
  ~ In r (Cache.keys c) -> Cache.delete c r = c.
Proof.
  unfold Cache.delete, Cache.keys.
  induction c as [|[k x] c IH]; simpl; [reflexivity|].
  intros H. unfold Cache.is_key at 1. simpl.
  destruct (Request_eqb k r) eqn:E.
  - apply Request_eqb_eq in E. exfalso. apply H. now left.
  - simpl. rewrite IH; [reflexivity|]. intros Hin. apply H. now right.
Qed.

Lemma Cache_keys_delete c r :
  Cache.keys (Cache.delete c r) = filter (fun k => negb (Request_eqb k r)) (Cache.keys c).
Proof.
  unfold Cache.delete, Cache.keys, Cache.is_key.
  induction c as [|[k x] c IH]; simpl; [reflexivity|].
  destruct (Request_eqb k r); simpl; now rewrite IH.
Qed.

Lemma Cache_keys_put c r resp :
  Cache.keys (Cache.put c r resp)
  = filter (fun k => negb (Request_eqb k r)) (Cache.keys c) ++ [r].
Proof.
  unfold Cache.put. unfold Cache.keys at 1. rewrite map_app. simpl.
  f_equal. apply Cache_keys_delete.
Qed.

Lemma filter_absent (ks : list Request) r :
  ~ In r ks -> filter (fun k => negb (Request_eqb k r)) ks = ks.
Proof.
  induction ks as [|k ks IH]; simpl; [reflexivity|].
  intros H. destruct (Request_eqb k r) eqn:E.
  - apply Request_eqb_eq in E. exfalso. apply H. now left.
  - simpl. rewrite IH; [reflexivity|]. intros Hin. apply H. now right.
Qed.

Lemma Cache_match_put_same c r resp :
  Cache.match_ (Cache.put c r resp) r = Some resp.
Proof.
  unfold Cache.put, Cache.delete, Cache.match_.
  induction c as [|[k x] c IH]; simpl.
  - unfold Cache.is_key. simpl. now rewrite Request_eqb_refl.
  - unfold Cache.is_key at 2. simpl.
    destruct (Request_eqb k r) eqn:E; simpl; [exact IH|].
    unfold Cache.is_key at 1. simpl. rewrite E. exact IH.
Qed.

Lemma Cache_match_put_other c r resp q :
  q <> r -> Cache.match_ c q = None -> Cache.match_ (Cache.put c r resp) q = None.
Proof.
  intros Hne. rewrite !Cache_match_In, Cache_keys_put, in_app_iff.
  intros H [Hin|[Hin|[]]].
  - apply filter_In in Hin. tauto.
  - congruence.
Qed.

Lemma Cache_match_delete_none c k q :
  Cache.match_ c q = None -> Cache.match_ (Cache.delete c k) q = None.
Proof.
  rewrite !Cache_match_In, Cache_keys_delete. intros H Hin.
  apply filter_In in Hin. tauto.
Qed.

Lemma Cache_match_delete_other c k q :
  q <> k -> Cache.match_ (Cache.delete c k) q = Cache.match_ c q.
Proof.
  intros Hne. unfold Cache.delete, Cache.match_.
  induction c as [|[k' x] c IH]; simpl; [reflexivity|].
  unfold Cache.is_key at 2. simpl.
  destruct (Request_eqb k' k) eqn:E; simpl.
  - apply Request_eqb_eq in E. subst k'.
    assert (Eq : Cache.is_key q (k, x) = false).
    { unfold Cache.is_key. simpl. apply Request_eqb_neq. congruence. }
    rewrite Eq. exact IH.
  - destruct (Cache.is_key q (k', x)); [reflexivity|exact IH].
Qed.

(** ** [caches.match] under [open] and [update] *)

Lemma Storage_match_open cs name r :
  Storage.match_ (Storage.open cs name) r = Storage.match_ cs r.
Proof.
  unfold Storage.open. destruct (Storage.has cs name); [reflexivity|].
  induction cs as [|g cs IH]; simpl; [reflexivity|].
  destruct (Cache.match_ (snd g) r); [reflexivity|exact IH].
Qed.

Lemma Storage_match_update_none cs name f r :
  (forall c, Cache.match_ c r = None -> Cache.match_ (f c) r = None) ->
  Storage.match_ cs r = None ->
  Storage.match_ (Storage.update cs name f) r = None.
Proof.
  intros Hf. unfold Storage.update.
  induction cs as [|g cs IH]; simpl; [reflexivity|].
  destruct (Cache.match_ (snd g) r) eqn:E; [discriminate|].
  intros H. destruct (Storage.named name g); simpl.
  - rewrite (Hf _ E). auto.
  - rewrite E. auto.
Qed.

Lemma Storage_match_update_hit cs name f r snapshot :
  Storage.has cs name = true ->
  (forall c, Cache.match_ c r = None -> Cache.match_ (f c) r = Some snapshot) ->
  Storage.match_ cs r = None ->
  Storage.match_ (Storage.update cs name f) r = Some snapshot.
Proof.
  intros Hhas Hf. unfold Storage.update, Storage.has in *.
  induction cs as [|g cs IH]; simpl in *; [discriminate|].
  destruct (Cache.match_ (snd g) r) eqn:E; [discriminate|].
  intros H. destruct (Storage.named name g); simpl.
  - now rewrite (Hf _ E).
  - rewrite E. auto.
Qed.

Lemma Storage_update_update cs name f g :
  Storage.update (Storage.update cs name f) name g
  = Storage.update cs name (fun c => g (f c)).
Proof.
  unfold Storage.update. rewrite map_map. apply map_ext.
  intros [n c]. unfold Storage.named. simpl.
  destruct (String.eqb n name) eqn:E; simpl; now rewrite E.
Qed.

Lemma Storage_match_entries cs name r :
  Storage.match_ cs r = None -> Cache.match_ (Storage.entries cs name) r = None.
Proof.
  rewrite Storage_match_none. intros H.
  unfold Storage.entries, Storage.lookup.
  destruct (find (Storage.named name) cs) as [g|] eqn:E; simpl; [|reflexivity].
  apply find_some in E. apply H. tauto.
Qed.

(** ** The bounded image cache *)

Lemma deletions_app name t1 t2 :
  deletions name (t1 ++ t2) = deletions name t1 ++ deletions name t2.
Proof.
  induction t1 as [|e t1 IH]; simpl; [reflexivity|].
  destruct e; auto. destruct (String.eqb name0 name); simpl; now rewrite IH.
Qed.

Lemma fetched_app t1 t2 : fetched (t1 ++ t2) = fetched t1 ++ fetched t2.
Proof.
  induction t1 as [|e t1 IH]; simpl; [reflexivity|].
  destruct e; simpl; now rewrite IH.
Qed.

Lemma NoDup_snoc (l : list Request) a : NoDup l -> ~ In a l -> NoDup (l ++ [a]).
Proof.
  induction 1 as [|x l Hx Hl IH]; simpl; intros Ha.
  - constructor; [tauto|constructor].
  - constructor.
    + rewrite in_app_iff. simpl. intros [H|[H|[]]]; [tauto|]. subst. tauto.
    + apply IH. tauto.
Qed.

Lemma image_entries_put r resp cs :
  Storage.match_ cs r = None ->
  Storage.entries
    (Storage.update (Storage.open cs IMAGE_CACHE) IMAGE_CACHE
       (fun c => Cache.put c r resp)) IMAGE_CACHE
  = Storage.entries cs IMAGE_CACHE ++ [(r, resp)].
Proof.
  intros Hm. rewrite Storage_entries_update by apply Storage_has_open.
  rewrite Storage_entries_open. unfold Cache.put.
  rewrite Cache_delete_absent; [reflexivity|].
  apply Cache_match_In. now apply Storage_match_entries.
Qed.

(** The world after the write-behind of an image that no generation held. *)
Lemma store_image_fresh r resp w :
  Storage.match_ (caches w) r = None ->
  let ks := Cache.keys (Storage.entries (caches w) IMAGE_CACHE) in
  let cs0 := Storage.open (caches w) IMAGE_CACHE in
  let t1 := trace w ++ [EvCachesOpen IMAGE_CACHE; EvCachePut IMAGE_CACHE r resp;
                        EvCacheKeys IMAGE_CACHE] in
  snd (store_image PutLandsFirst r resp w)
  = match ks with
    | k0 :: _ =>
        if (IMAGE_CACHE_LIMIT <? length (ks ++ [r]))%nat
        then mkWorld (Storage.update cs0 IMAGE_CACHE
                        (fun c => Cache.delete (Cache.put c r resp) k0))
                     (t1 ++ [EvCacheDelete IMAGE_CACHE k0])
        else mkWorld (Storage.update cs0 IMAGE_CACHE (fun c => Cache.put c r resp)) t1
    | [] => mkWorld (Storage.update cs0 IMAGE_CACHE (fun c => Cache.put c r resp)) t1
    end.
Proof.
  intros Hm ks cs0 t1. rewrite store_image_eq. cbv zeta.
  rewrite (image_entries_put r resp (caches w) Hm).
  unfold Cache.keys at 1 2. rewrite map_app. simpl.
  fold (Cache.keys (Storage.entries (caches w) IMAGE_CACHE)). fold ks. fold cs0. fold t1.
  destruct ks as [|k0 ks']; simpl app.
  - reflexivity.
  - destruct (IMAGE_CACHE_LIMIT <? _)%nat; [|reflexivity].
    now rewrite Storage_update_update.
Qed.

Lemma fifo_step_length ks r :
  length ks <= IMAGE_CACHE_LIMIT ->
  length (fst (fifo_step ks r)) = Nat.min (S (length ks)) IMAGE_CACHE_LIMIT.
Proof.
  intros H. unfold fifo_step.
  destruct (IMAGE_CACHE_LIMIT <? length (ks ++ [r]))%nat eqn:E.
  - apply Nat.ltb_lt in E. rewrite length_app in E. simpl in E.
    destruct ks as [|k ks]; simpl in *; [unfold IMAGE_CACHE_LIMIT in *; lia|].
    rewrite length_app. simpl. unfold IMAGE_CACHE_LIMIT in *. lia.
  - apply Nat.ltb_ge in E. simpl. rewrite length_app in *. simpl in *.
    unfold IMAGE_CACHE_LIMIT in *. lia.
Qed.

(** One image fetched and stored: the step of the listener on a request
    that no generation holds and that the network answers with an ok
    status. *)
Lemma image_step origin net r resp w :
  classify origin r = ImageCache ->
  Storage.match_ (caches w) r = None ->
  net r = Some resp -> ok resp = true ->
  let ks := Cache.keys (Storage.entries (caches w) IMAGE_CACHE) in
  let w' := snd (fetch_listener PutLandsFirst origin net r w) in
  fst (fetch_listener PutLandsFirst origin net r w) = Respond resp /\
  Storage.match_ (caches w') r = Some resp /\
  (forall q, q <> r -> Storage.match_ (caches w) q = None ->
             Storage.match_ (caches w') q = None) /\
  fetched (trace w') = fetched (trace w) ++ [r] /\
  (NoDup ks ->
   Cache.keys (Storage.entries (caches w') IMAGE_CACHE) = fst (fifo_step ks r) /\
   deletions IMAGE_CACHE (trace w')
   = deletions IMAGE_CACHE (trace w) ++ snd (fifo_step ks r)).
Proof.
  intros Hc Hm Hn Hok ks w'. subst w'. unfold fetch_listener. rewrite Hc.
  rewrite (cache_first_miss_ok net r (store_image PutLandsFirst) w resp Hm Hn Hok).
  cbn [fst snd]. split; [reflexivity|].
  rewrite store_image_fresh by exact Hm. cbv zeta.
  cbn [caches trace emit]. fold ks.
  assert (Hr : ~ In r ks).
  { apply Cache_match_In. now apply Storage_match_entries. }
  assert (Hput : forall q, q <> r ->
            Storage.match_ (caches w) q = None ->
            Storage.match_
              (Storage.update (Storage.open (caches w) IMAGE_CACHE) IMAGE_CACHE
                 (fun c => Cache.put c r resp)) q = None).
  { intros q Hq Hmq. apply Storage_match_update_none.
    - intros c. now apply Cache_match_put_other.
    - now rewrite Storage_match_open. }
  assert (Hhit : Storage.match_
              (Storage.update (Storage.open (caches w) IMAGE_CACHE) IMAGE_CACHE
                 (fun c => Cache.put c r resp)) r = Some resp).
  { apply Storage_match_update_hit.
    - apply Storage_has_open.
    - intros c _. apply Cache_match_put_same.
    - now rewrite Storage_match_open. }
  assert (Hkeys : Cache.keys
             (Storage.entries
                (Storage.update (Storage.open (caches w) IMAGE_CACHE) IMAGE_CACHE
                   (fun c => Cache.put c r resp)) IMAGE_CACHE) = ks ++ [r]).
  { rewrite image_entries_put by exact Hm. unfold Cache.keys. rewrite map_app.
    reflexivity. }
  assert (Hnoevict :
    Storage.match_
      (caches (mkWorld (Storage.update (Storage.open (caches w) IMAGE_CACHE) IMAGE_CACHE
                 (fun c => Cache.put c r resp))
          (((trace w ++ [EvCachesMatch r]) ++ [EvFetch r]) ++
           [EvCachesOpen IMAGE_CACHE; EvCachePut IMAGE_CACHE r resp;
            EvCacheKeys IMAGE_CACHE]))) r = Some resp /\
    (forall q, q <> r -> Storage.match_ (caches w) q = None ->
       Storage.match_
         (caches (mkWorld (Storage.update (Storage.open (caches w) IMAGE_CACHE) IMAGE_CACHE
                 (fun c => Cache.put c r resp))
          (((trace w ++ [EvCachesMatch r]) ++ [EvFetch r]) ++
           [EvCachesOpen IMAGE_CACHE; EvCachePut IMAGE_CACHE r resp;
            EvCacheKeys IMAGE_CACHE]))) q = None) /\
    fetched (trace (mkWorld (Storage.update (Storage.open (caches w) IMAGE_CACHE) IMAGE_CACHE
                 (fun c => Cache.put c r resp))
          (((trace w ++ [EvCachesMatch r]) ++ [EvFetch r]) ++
           [EvCachesOpen IMAGE_CACHE; EvCachePut IMAGE_CACHE r resp;
            EvCacheKeys IMAGE_CACHE]))) = fetched (trace w) ++ [r]).
  { cbn [caches trace]. repeat split; auto.
    rewrite !fetched_app. simpl. now rewrite !app_nil_r. }
  destruct ks as [|k0 ks'] eqn:Eks.
  - destruct Hnoevict as (H1 & H2 & H3).
    split; [exact H1|]. split; [exact H2|]. split; [exact H3|].
    intros _. split.
    + cbn [caches]. rewrite Hkeys. reflexivity.
    + cbn [trace]. rewrite !deletions_app. simpl. now rewrite !app_nil_r.
  - unfold fifo_step.
    destruct (IMAGE_CACHE_LIMIT <? length ((k0 :: ks') ++ [r]))%nat eqn:E.
    + assert (Hk0 : r <> k0) by (intros ->; apply Hr; now left).
      cbn [caches trace fst snd].
      split; [|split; [|split; [|intros H; split]]].
      * apply Storage_match_update_hit.
        -- apply Storage_has_open.
        -- intros c _. rewrite Cache_match_delete_other by exact Hk0.
           apply Cache_match_put_same.
        -- now rewrite Storage_match_open.
      * intros q Hq Hmq. apply Storage_match_update_none.
        -- intros c Hcq. apply Cache_match_delete_none.
           now apply Cache_match_put_other.
        -- now rewrite Storage_match_open.
      * rewrite !fetched_app. simpl. now rewrite !app_nil_r.
      * rewrite Storage_entries_update by apply Storage_has_open.
        rewrite Storage_entries_open, Cache_keys_delete, Cache_keys_put.
        fold ks. rewrite Eks. rewrite (filter_absent _ r Hr).
        simpl. rewrite Request_eqb_refl. simpl.
        inversion H as [|? ? Hk0' Hnd]; subst.
        rewrite filter_app. simpl.
        assert (Er : Request_eqb r k0 = false) by now apply Request_eqb_neq.
        rewrite Er. simpl. now rewrite filter_absent.
      * rewrite !deletions_app. simpl. now rewrite !app_nil_r.
    + destruct Hnoevict as (H1 & H2 & H3).
      split; [exact H1|]. split; [exact H2|]. split; [exact H3|].
      intros _. split.
      * cbn [caches fst]. rewrite Hkeys. reflexivity.
      * cbn [trace snd]. rewrite !deletions_app. simpl. now rewrite !app_nil_r.
Qed.

Lemma fifo_step_NoDup ks r :
  NoDup ks -> ~ In r ks -> NoDup (fst (fifo_step ks r)).
Proof.
  intros Hnd Hr. assert (H : NoDup (ks ++ [r])) by now apply NoDup_snoc.
  unfold fifo_step. destruct (IMAGE_CACHE_LIMIT <? _)%nat; simpl; [|exact H].
  destruct (ks ++ [r]) as [|k l]; simpl; [constructor|].
  now inversion H.
Qed.

(** Writing [r], then the others, first in first out, leaves the last
    [IMAGE_CACHE_LIMIT] keys of the whole sequence and has evicted the keys
    before them, oldest first. *)
Lemma fifo_step_skipn ks r rs :
  length ks <= IMAGE_CACHE_LIMIT ->
  skipn (length (fst (fifo_step ks r) ++ rs) - IMAGE_CACHE_LIMIT)
        (fst (fifo_step ks r) ++ rs)
  = skipn (length (ks ++ r :: rs) - IMAGE_CACHE_LIMIT) (ks ++ r :: rs) /\
  snd (fifo_step ks r) ++
  firstn (length (fst (fifo_step ks r) ++ rs) - IMAGE_CACHE_LIMIT)
         (fst (fifo_step ks r) ++ rs)
  = firstn (length (ks ++ r :: rs) - IMAGE_CACHE_LIMIT) (ks ++ r :: rs).
Proof.
  intros Hlen. unfold fifo_step.
  destruct (IMAGE_CACHE_LIMIT <? length (ks ++ [r]))%nat eqn:E.
  - apply Nat.ltb_lt in E. rewrite length_app in E. cbn [length] in E.
    destruct ks as [|k0 ks']; cbn [length] in *;
      [unfold IMAGE_CACHE_LIMIT in E; lia|].
    cbn [app tl fst snd firstn].
    rewrite <- app_assoc. cbn [app].
    assert (L1 : length (ks' ++ r :: rs) - IMAGE_CACHE_LIMIT = length rs).
    { rewrite length_app. cbn [length]. lia. }
    assert (L2 : length (k0 :: ks' ++ r :: rs) - IMAGE_CACHE_LIMIT = S (length rs)).
    { cbn [length]. rewrite length_app. cbn [length]. lia. }
    rewrite L1, L2. split; reflexivity.
  - cbn [fst snd app]. rewrite <- app_assoc. cbn [app]. split; reflexivity.
Qed.

Lemma run_fetches_images origin net rs : forall w,
  (forall r, In r rs -> classify origin r = ImageCache) ->
  NoDup rs ->
  (forall r, In r rs -> exists resp, net r = Some resp /\ ok resp = true) ->
  (forall r, In r rs -> Storage.match_ (caches w) r = None) ->
  NoDup (Cache.keys (Storage.entries (caches w) IMAGE_CACHE)) ->
  length (Cache.keys (Storage.entries (caches w) IMAGE_CACHE)) <= IMAGE_CACHE_LIMIT ->
  let all := Cache.keys (Storage.entries (caches w) IMAGE_CACHE) ++ rs in
  let w' := run_fetches PutLandsFirst origin net rs w in
  Cache.keys (Storage.entries (caches w') IMAGE_CACHE)
  = skipn (length all - IMAGE_CACHE_LIMIT) all /\
  deletions IMAGE_CACHE (trace w')
  = deletions IMAGE_CACHE (trace w) ++ firstn (length all - IMAGE_CACHE_LIMIT) all /\
  fetched (trace w') = fetched (trace w) ++ rs.
Proof.
  induction rs as [|r rs IH]; intros w Hc Hnd Hnet Hfresh Hks Hlen; cbv zeta.
  - cbn [run_fetches]. rewrite !app_nil_r.
    replace (length (Cache.keys (Storage.entries (caches w) IMAGE_CACHE))
             - IMAGE_CACHE_LIMIT) with 0 by lia.
    cbn [skipn firstn]. now rewrite app_nil_r.
  - cbn [run_fetches].
    destruct (Hnet r (or_introl eq_refl)) as (resp & Hn & Hok).
    destruct (image_step origin net r resp w
                (Hc r (or_introl eq_refl)) (Hfresh r (or_introl eq_refl)) Hn Hok)
      as (_ & _ & Hothers & Hfetched & Hstep).
    destruct (Hstep Hks) as [Hkeys Hdel].
    set (w1 := snd (fetch_listener PutLandsFirst origin net r w)) in *.
    inversion Hnd as [|? ? Hr Hnd']; subst.
    assert (Hr0 : ~ In r (Cache.keys (Storage.entries (caches w) IMAGE_CACHE))).
    { apply Cache_match_In, Storage_match_entries. apply Hfresh. now left. }
    specialize (IH w1).
    cbv zeta in IH. rewrite Hkeys, Hdel, Hfetched in IH.
    destruct IH as (IH1 & IH2 & IH3).
    + intros q Hq. apply Hc. now right.
    + exact Hnd'.
    + intros q Hq. apply Hnet. now right.
    + intros q Hq. apply Hothers.
      * intros ->. contradiction.
      * apply Hfresh. now right.
    + now apply fifo_step_NoDup.
    + rewrite fifo_step_length; [lia | lia].
    + destruct (fifo_step_skipn
                  (Cache.keys (Storage.entries (caches w) IMAGE_CACHE)) r rs Hlen)
        as [S1 S2].
      rewrite IH1, IH2, IH3. rewrite S1. rewrite <- !app_assoc. rewrite S2.
      repeat split; reflexivity.
Qed.

(** When every [put] lands before the enumeration that follows it: more
    than 100 images with distinct request identities, fetched with success
    one after the other through the image strategy, leave the image
    generation with exactly 100 entries: the last 100 written.  Each write
    beyond the bound deleted one entry, the oldest then held: taken together
    the deletions are the entries before the last 100, in the order of their
    insertion. *)
Lemma image_cache_bounded_fifo_put_first origin net cs rs :
  (forall r, In r rs -> classify origin r = ImageCache) ->
  NoDup rs ->
  (forall r, In r rs -> exists resp, net r = Some resp /\ ok resp = true) ->
  (forall r, In r rs -> Storage.match_ cs r = None) ->
  NoDup (Cache.keys (Storage.entries cs IMAGE_CACHE)) ->
  length (Storage.entries cs IMAGE_CACHE) <= IMAGE_CACHE_LIMIT ->
  IMAGE_CACHE_LIMIT < length rs ->
  let all := Cache.keys (Storage.entries cs IMAGE_CACHE) ++ rs in
  let w' := run_fetches PutLandsFirst origin net rs (mkWorld cs []) in
  fetched (trace w') = rs /\
  length (Storage.entries (caches w') IMAGE_CACHE) = IMAGE_CACHE_LIMIT /\
  Cache.keys (Storage.entries (caches w') IMAGE_CACHE)
  = skipn (length all - IMAGE_CACHE_LIMIT) all /\
  deletions IMAGE_CACHE (trace w') = firstn (length all - IMAGE_CACHE_LIMIT) all /\
  length (deletions IMAGE_CACHE (trace w'))
  = length (Storage.entries cs IMAGE_CACHE) + length rs - IMAGE_CACHE_LIMIT.
Proof.
  intros Hc Hnd Hnet Hfresh Hks Hlen HN all w'.
  assert (Hlen' : length (Cache.keys (Storage.entries cs IMAGE_CACHE))
                  <= IMAGE_CACHE_LIMIT).
  { unfold Cache.keys. now rewrite length_map. }
  destruct (run_fetches_images origin net rs (mkWorld cs []) Hc Hnd Hnet Hfresh Hks Hlen')
    as (H1 & H2 & H3).
  cbn [caches trace deletions fetched app] in H1, H2, H3.
  fold all in H1, H2. fold w' in H1, H2, H3.
  assert (Hall : length all
                 = length (Storage.entries cs IMAGE_CACHE) + length rs).
  { unfold all, Cache.keys. now rewrite length_app, length_map. }
  split; [exact H3|]. split; [|split; [exact H1|split; [exact H2|]]].
  - transitivity (length (Cache.keys (Storage.entries (caches w') IMAGE_CACHE))).
    + unfold Cache.keys. now rewrite length_map.
    + rewrite H1, length_skipn. lia.
  - rewrite H2, length_firstn. lia.
Qed.




(** C10: the routes are chosen by substring and prefix tests, not by
    comparing origins.  A request to the host
    [images.unsplash.com.attacker.example], which is not the image CDN, is
    routed to the bounded image cache and stored in the image generation; a
    request to [https://fonts.googleapis.com.attacker.example/x], whose
    origin is none of the allowlisted ones, is routed to the allowlisted
    cache-first strategy and stored in the current-version generation. *)
Theorem C10_lookalike_hosts_are_cached landing origin :
  (exists r,
      URL.hostname (URL.parse (url r)) = "images.unsplash.com.attacker.example" /\
      URL.hostname (URL.parse (url r)) <> "images.unsplash.com" /\
      includes (URL.hostname (URL.parse (url r))) "images.unsplash.com" = true /\
      classify origin r = ImageCache /\
      caches (snd (fetch_listener landing origin net_ok r (mkWorld [] [])))
      = [(IMAGE_CACHE, [(r, mkResponse 200 (url r))])]) /\
  (exists r,
      url r = "https://fonts.googleapis.com.attacker.example/x" /\
      URL.hostname (URL.parse (url r)) = "fonts.googleapis.com.attacker.example" /\
      startsWith (url r) "https://fonts.googleapis.com" = true /\
      (forall o, In o RUNTIME_CACHE_ORIGINS ->
                 URL.origin (URL.parse (url r)) <> URL.origin (URL.parse o)) /\
      classify origin r = AllowlistedThirdParty /\
      caches (snd (fetch_listener landing origin net_ok r (mkWorld [] [])))
      = [(CACHE_NAME, [(r, mkResponse 200 (url r))])]).
Proof.
  split.
  - exists lookalike_image.
    assert (Hc : classify origin lookalike_image = ImageCache) by reflexivity.
    split; [reflexivity|]. split; [discriminate|]. split; [reflexivity|].
    split; [exact Hc|].
    unfold fetch_listener. rewrite Hc. destruct landing; reflexivity.
  - exists lookalike_font.
    assert (Hc : classify origin lookalike_font = AllowlistedThirdParty)
      by reflexivity.
    split; [reflexivity|]. split; [reflexivity|]. split; [reflexivity|].
    split; [|split; [exact Hc|]].
    + intros o [<-|[<-|[<-|[]]]]; discriminate.
    + unfold fetch_listener. rewrite Hc. reflexivity.
Qed.

(** * The claims on sample data *)

Lemma nodupb_NoDup l : nodupb l = true -> NoDup l.
Proof.
  induction l as [|r l IH]; simpl; [constructor|].
  intros H. apply andb_true_iff in H. destruct H as [Hr Hl].
  constructor; [|auto].
  intros Hin. apply negb_true_iff in Hr.
  assert (existsb (Request_eqb r) l = true); [|congruence].
  apply existsb_exists. exists r. split; [exact Hin|apply Request_eqb_refl].
Qed.

Lemma all_ImageCache origin rs :
  forallb (fun r => is_ImageCache (classify origin r)) rs = true ->
  forall r, In r rs -> classify origin r = ImageCache.
Proof.
  intros H r Hr. rewrite forallb_forall in H. specialize (H r Hr).
  now destruct (classify origin r).
Qed.

(** With every [put] landing first, 101 photographs fetched into an empty
    store: the first one is evicted, the other 100 are held. *)
Lemma photos_put_first :
  let w' := run_fetches PutLandsFirst app_origin net_ok photos (mkWorld [] []) in
  fetched (trace w') = photos /\
  length (Storage.entries (caches w') IMAGE_CACHE) = IMAGE_CACHE_LIMIT /\
  Cache.keys (Storage.entries (caches w') IMAGE_CACHE)
  = skipn (length ([] ++ photos) - IMAGE_CACHE_LIMIT) ([] ++ photos) /\
  deletions IMAGE_CACHE (trace w')
  = firstn (length ([] ++ photos) - IMAGE_CACHE_LIMIT) ([] ++ photos) /\
  length (deletions IMAGE_CACHE (trace w')) = 0 + length photos - IMAGE_CACHE_LIMIT.
Proof.
  apply (image_cache_bounded_fifo_put_first app_origin net_ok [] photos).
  - apply all_ImageCache. vm_compute. reflexivity.
  - apply nodupb_NoDup. vm_compute. reflexivity.
  - intros r _. exists (mkResponse 200 (url r)). split; reflexivity.
  - intros r _. reflexivity.
  - constructor.
  - simpl. lia.
  - unfold photos, IMAGE_CACHE_LIMIT. rewrite length_map, length_seq. lia.
Qed.

(** C1, on the code: the [put] is not awaited, and when it lands after the
    eviction check the check counts the entries without the new one.  101
    photographs with distinct identities, fetched with success one after the
    other into an empty store, are then all held: the generation has 101
    entries and nothing was deleted.  With 150 photographs the generation
    stays at 101 entries: the first 49 were evicted, oldest first. *)
Theorem C1_put_landing_last_holds_101 :
  NoDup photos /\
  fetched (trace (run_fetches PutLandsLast app_origin net_ok photos (mkWorld [] [])))
  = photos /\
  Cache.keys
    (Storage.entries
       (caches (run_fetches PutLandsLast app_origin net_ok photos (mkWorld [] [])))
       IMAGE_CACHE)
  = photos /\
  length
    (Storage.entries
       (caches (run_fetches PutLandsLast app_origin net_ok photos (mkWorld [] [])))
       IMAGE_CACHE)
  = 101 /\
  deletions IMAGE_CACHE
    (trace (run_fetches PutLandsLast app_origin net_ok photos (mkWorld [] [])))
  = [] /\
  Cache.keys
    (Storage.entries
       (caches (run_fetches PutLandsLast app_origin net_ok more_photos
                  (mkWorld [] [])))
       IMAGE_CACHE)
  = skipn 49 more_photos /\
  deletions IMAGE_CACHE
    (trace (run_fetches PutLandsLast app_origin net_ok more_photos (mkWorld [] [])))
  = firstn 49 more_photos.
Proof.
  split; [apply nodupb_NoDup; vm_compute; reflexivity|].
  repeat split; vm_compute; reflexivity.
Qed.





Lemma C4_witness :
  fst (fetch_listener PutLandsLast app_origin net_404 shell_request
         (mkWorld store_with_next_version []))
  = Respond (mkResponse 404 "Not Found") /\
  caches (snd (fetch_listener PutLandsLast app_origin net_404 shell_request
                 (mkWorld store_with_next_version [])))
  = store_with_next_version /\
  forallb (fun e => negb (is_put e))
    (trace (snd (fetch_listener PutLandsLast app_origin net_404 shell_request
                   (mkWorld store_with_next_version [])))) = true.
Proof.
  apply (proj1 (C4_only_ok_responses_stored PutLandsLast app_origin net_404 shell_request
                  store_with_next_version)).
  - reflexivity.
  - reflexivity.
  - vm_compute. auto.
Defined.


Lemma C6_witness :
  (classify app_origin (mkRequest "POST" "https://matt-10013.github.io/folio/")
   = Bypass /\
   fetch_listener PutLandsLast app_origin net_ok
     (mkRequest "POST" "https://matt-10013.github.io/folio/")
     (mkWorld store_with_two_stale [])
   = (PassThrough, mkWorld store_with_two_stale [])) /\
  (classify app_origin (GET "https://firestore.googleapis.com/v1/projects/folio")
   = Bypass /\
   fetch_listener PutLandsLast app_origin net_ok
     (GET "https://firestore.googleapis.com/v1/projects/folio")
     (mkWorld store_with_two_stale [])
   = (PassThrough, mkWorld store_with_two_stale [])).
Proof.
  split.
  - apply (C6_bypass_untouched PutLandsLast). left. discriminate.
  - apply (C6_bypass_untouched PutLandsLast). right. right. left. vm_compute. reflexivity.
Defined.



(** C9 fails as stated: the deletion of [folio-v0.8] rejects; the
    generation [folio-v0.9] is deleted all the same, but the rollover is
    rejected and the clients are not claimed. *)
Lemma C9_rejected_deletion_rejects_rollover :
  Storage.lookup
    (caches (snd (activate (String.eqb "folio-v0.8")
                    (mkWorld store_with_two_stale [])))) "folio-v0.9" = None /\
  fst (activate (String.eqb "folio-v0.8") (mkWorld store_with_two_stale []))
  = Rejected /\
  trace (snd (activate (String.eqb "folio-v0.8") (mkWorld store_with_two_stale [])))
  = [EvCachesKeys; EvCachesDelete "folio-v0.8"; EvCachesDelete "folio-v0.9"] /\
  fst (activate (fun _ => false) (mkWorld store_with_two_stale []))
  = Fulfilled tt.
Proof. repeat split; vm_compute; reflexivity. Qed.

Lemma C9_witness :
  fst (activate (String.eqb "folio-v0.8") (mkWorld store_with_two_stale []))
  = Rejected /\
  ~ In EvClientsClaim
       (trace (snd (activate (String.eqb "folio-v0.8")
                      (mkWorld store_with_two_stale [])))).
Proof.
  apply (proj1 (proj2 (proj2 (proj2
           (C9_deletions_independent_failure_rejects
              (String.eqb "folio-v0.8") store_with_two_stale))))).
  exists "folio-v0.8". repeat split; vm_compute; auto.
Defined.

(** * Further properties *)

(** ** The host name of a parsed URL *)

Lemma prefix_mentions c p : forall s,
  String.prefix p s = true -> mentions c p = true -> mentions c s = true.
Proof.
  induction p as [|a p IH]; simpl; intros s Hp Hm; [discriminate Hm|].
  destruct s as [|b s]; [discriminate Hp|].
  revert Hp. cbn [String.prefix].
  destruct (ascii_dec a b) as [->|]; [|discriminate].
  intros Hp. simpl. destruct (Ascii.eqb b c); simpl in *; [reflexivity|].
  now apply IH.
Qed.

Lemma includes_mentions c p s :
  includes s p = true -> mentions c p = true -> mentions c s = true.
Proof.
  intros Hi Hm. induction s as [|b s IH].
  - simpl in Hi. rewrite orb_false_r in Hi. now apply (prefix_mentions c p "").
  - cbn [includes] in Hi. apply orb_true_iff in Hi. destruct Hi as [Hi|Hi].
    + now apply (prefix_mentions c p).
    + simpl. rewrite (IH Hi). now rewrite orb_true_r.
Qed.

Lemma take_until_mentions_fst c stop s :
  mentions c (fst (URL.take_until stop s)) = true -> mentions c s = true.
Proof.
  induction s as [|b s IH]; simpl; [auto|].
  destruct (stop b); simpl; [discriminate|].
  destruct (URL.take_until stop s) as [x y]. simpl in *.
  destruct (Ascii.eqb b c); simpl; auto.
Qed.

Lemma take_until_stops c stop s :
  stop c = true -> mentions c (fst (URL.take_until stop s)) = false.
Proof.
  intros Hc. induction s as [|b s IH]; simpl; [reflexivity|].
  destruct (stop b) eqn:Hb; simpl; [reflexivity|].
  destruct (URL.take_until stop s) as [x y]. simpl in *.
  rewrite IH, orb_false_r. apply Ascii.eqb_neq. intros ->. congruence.
Qed.

Lemma after_userinfo_mentions c s :
  mentions c (URL.after_userinfo s) = true -> mentions c s = true.
Proof.
  induction s as [|b s IH]; simpl; [auto|].
  destruct (includes s "@").
  - intros H. rewrite (IH H). now rewrite orb_true_r.
  - destruct (Ascii.eqb b "@"); simpl.
    + intros ->. now rewrite orb_true_r.
    + auto.
Qed.

Lemma mentions_app c a b :
  mentions c (a ++ b)%string = mentions c a || mentions c b.
Proof.
  induction a as [|x a IH]; simpl; [reflexivity|].
  now rewrite IH, orb_assoc.
Qed.

Lemma strip_port_mentions_slash h :
  mentions "/" (URL.strip_port h) = true -> mentions "/" h = true.
Proof.
  unfold URL.strip_port. destruct (String.prefix "[" h).
  - pose proof (take_until_mentions_fst "/" URL.is_rbracket h) as H.
    destruct (URL.take_until URL.is_rbracket h) as [a b]. simpl in H.
    destruct (String.prefix "]" b); [|exact H].
    rewrite mentions_app. simpl. rewrite orb_false_r. exact H.
  - apply take_until_mentions_fst.
Qed.

Lemma hostname_no_slash s :
  mentions "/" (URL.hostname (URL.parse s)) = false.
Proof.
  unfold URL.parse.
  destruct (URL.take_until URL.is_colon s) as [scheme rest].
  destruct (String.prefix "://" rest); cbn [URL.hostname]; [|reflexivity].
  destruct (mentions "/" (URL.strip_port _)) eqn:E; [|reflexivity].
  apply strip_port_mentions_slash, after_userinfo_mentions in E.
  rewrite take_until_stops in E; [discriminate|reflexivity].
Qed.

(** X1: the marker ["googleapis.com/identitytoolkit"] of the bypass guard
    never matches: it is looked for in the host name of the request, and a
    host name has no ["/"].  The guard of line 36 therefore bypasses on the
    three other markers only. *)
Theorem X1_identitytoolkit_marker_never_matches s :
  includes (URL.hostname (URL.parse s)) "googleapis.com/identitytoolkit" = false /\
  bypass_marker (URL.hostname (URL.parse s))
  = includes (URL.hostname (URL.parse s)) "firebaseauth"
    || includes (URL.hostname (URL.parse s)) "firestore"
    || includes (URL.hostname (URL.parse s)) "securetoken".
Proof.
  assert (H : includes (URL.hostname (URL.parse s))
                "googleapis.com/identitytoolkit" = false).
  { destruct (includes _ _) eqn:E; [|reflexivity].
    apply (includes_mentions "/") in E; [|reflexivity].
    now rewrite hostname_no_slash in E. }
  split; [exact H|]. unfold bypass_marker. rewrite H.
  now rewrite orb_false_r.
Qed.

(** ** Cache-first and network-first, end to end *)



(** What the write-behind of the current-version generation leaves: the
    request is held, with the response just stored. *)
Lemma store_current_holds r resp w :
  Storage.match_ (caches w) r = None ->
  Storage.match_ (caches (snd (store_current r resp w))) r = Some resp.
Proof.
  intros Hm. rewrite store_current_eq. cbn [snd caches].
  apply Storage_match_update_hit.
  - apply Storage_has_open.
  - intros c _. apply Cache_match_put_same.
  - now rewrite Storage_match_open.
Qed.

(** In the allowlisted route a [put] is only issued after a miss, for the
    response of the network, and when its status is ok. *)
Lemma allowlisted_put_fetched landing origin net r resp cs :
  classify origin r = AllowlistedThirdParty ->
  In (EvCachePut CACHE_NAME r resp)
     (trace (snd (fetch_listener landing origin net r (mkWorld cs [])))) ->
  Storage.match_ cs r = None /\ net r = Some resp /\ ok resp = true.
Proof.
  intros Hc. unfold fetch_listener. rewrite Hc.
  destruct (Storage.match_ cs r) as [hit|] eqn:Hm.
  - rewrite (cache_first_hit net r store_current (mkWorld cs []) hit Hm).
    simpl. intros [H|[]]; discriminate.
  - destruct (net r) as [x|] eqn:Hn.
    + destruct (ok x) eqn:Hok.
      * rewrite (cache_first_miss_ok net r store_current (mkWorld cs [])
                   x Hm Hn Hok).
        cbn [snd]. intros H. apply store_current_puts in H.
        destruct H as [H|[_ ->]]; [|auto].
        simpl in H. destruct H as [H|[H|[]]]; discriminate.
      * rewrite (cache_first_miss_not_ok net r store_current
                   (mkWorld cs []) x Hm Hn Hok).
        simpl. intros [H|[H|[]]]; discriminate.
    + rewrite (cache_first_miss_rejected net r store_current
                 (mkWorld cs []) Hm Hn).
      simpl. intros [H|[H|[]]]; discriminate.
Qed.

(** X3: once an allowlisted third-party request has been fetched and its
    snapshot stored in the current-version generation, the same request is
    answered with that snapshot and the network is not consulted again. *)
Theorem X3_repeated_allowlisted_request_not_fetched
    landing landing' origin net net' r resp cs :
  classify origin r = AllowlistedThirdParty ->
  In (EvCachePut CACHE_NAME r resp)
     (trace (snd (fetch_listener landing origin net r (mkWorld cs [])))) ->
  net r = Some resp /\
  fetch_listener landing' origin net' r
    (mkWorld (caches (snd (fetch_listener landing origin net r (mkWorld cs [])))) [])
  = (Respond resp,
     mkWorld (caches (snd (fetch_listener landing origin net r (mkWorld cs []))))
             [EvCachesMatch r]).
Proof.
  intros Hc Hput.
  destruct (allowlisted_put_fetched landing origin net r resp cs Hc Hput)
    as (Hm & Hn & Hok).
  split; [exact Hn|].
  assert (Hhit : Storage.match_
                   (caches (snd (fetch_listener landing origin net r (mkWorld cs []))))
                   r = Some resp).
  { unfold fetch_listener. rewrite Hc.
    rewrite (cache_first_miss_ok net r store_current (mkWorld cs []) resp Hm Hn Hok).
    cbn [snd]. apply store_current_holds. exact Hm. }
  unfold fetch_listener at 1. rewrite Hc.
  exact (cache_first_hit net' r store_current
           (mkWorld (caches (snd (fetch_listener landing origin net r
                                    (mkWorld cs [])))) [])
           resp Hhit).
Qed.

Lemma X3_witness :
  net_ok font_request = Some (mkResponse 200 (url font_request)) /\
  fetch_listener PutLandsFirst app_origin offline font_request
    (mkWorld (caches (snd (fetch_listener PutLandsFirst app_origin net_ok
                             font_request (mkWorld [] [])))) [])
  = (Respond (mkResponse 200 (url font_request)),
     mkWorld (caches (snd (fetch_listener PutLandsFirst app_origin net_ok
                             font_request (mkWorld [] []))))
             [EvCachesMatch font_request]).
Proof.
  apply (X3_repeated_allowlisted_request_not_fetched PutLandsFirst PutLandsFirst
           app_origin net_ok offline font_request
           (mkResponse 200 (url font_request)) []).
  - reflexivity.
  - vm_compute. auto 10.
Defined.




Lemma Cache_match_app c1 c2 q :
  Cache.match_ (c1 ++ c2) q
  = match Cache.match_ c1 q with
    | Some s => Some s
    | None => Cache.match_ c2 q
    end.
Proof.
  unfold Cache.match_. induction c1 as [|e c1 IH]; simpl; [reflexivity|].
  destruct (Cache.is_key q e); simpl; [reflexivity|exact IH].
Qed.

Lemma Cache_match_put c r resp q :
  Cache.match_ (Cache.put c r resp) q
  = if Request_eqb r q then Some resp else Cache.match_ c q.
Proof.
  destruct (Request_eqb r q) eqn:E.
  - apply Request_eqb_eq in E. subst q. apply Cache_match_put_same.
  - apply Request_eqb_neq in E. unfold Cache.put.
    rewrite Cache_match_app, Cache_match_delete_other by congruence.
    destruct (Cache.match_ c q); [reflexivity|].
    unfold Cache.match_, Cache.is_key. simpl.
    apply Request_eqb_neq in E. now rewrite E.
Qed.





(** ** Provisioning, end to end *)










(** ** Rollover, end to end *)

Lemma filter_filter {A} (p q : A -> bool) l :
  filter p (filter q l) = filter (fun x => q x && p x) l.
Proof.
  induction l as [|x l IH]; simpl; [reflexivity|].
  destruct (q x); simpl; [destruct (p x)|]; now rewrite IH.
Qed.

Lemma fold_delete_filter fails ks : forall cs,
  forallb (fun k => negb (fails k)) ks = true ->
  fold_left (delete_unless fails) ks cs
  = filter (fun g => negb (existsb (String.eqb (fst g)) ks)) cs.
Proof.
  induction ks as [|k ks IH]; intros cs Hall; simpl.
  - induction cs as [|g cs IHcs]; simpl; [reflexivity|]. now rewrite <- IHcs.
  - simpl in Hall. apply andb_true_iff in Hall. destruct Hall as [Hk Hall].
    apply negb_true_iff in Hk. unfold delete_unless at 2. rewrite Hk.
    rewrite IH by exact Hall. unfold Storage.delete. rewrite filter_filter.
    apply filter_ext. intros g. unfold Storage.named.
    now rewrite negb_orb.
Qed.

Lemma stale_keys_filter cs :
  filter (fun g => negb (existsb (String.eqb (fst g))
                           (filter stale (Storage.keys cs)))) cs
  = filter live cs.
Proof.
  apply filter_ext_in. intros g Hg. unfold live. f_equal.
  destruct (stale (fst g)) eqn:Hs.
  - apply existsb_exists. exists (fst g). split; [|apply String.eqb_refl].
    apply filter_In. split; [|exact Hs]. unfold Storage.keys. now apply in_map.
  - destruct (existsb _ _) eqn:E; [|reflexivity].
    apply existsb_exists in E. destruct E as (k & Hk & Ek).
    apply filter_In in Hk. apply String.eqb_eq in Ek. subst k.
    destruct Hk as [_ Hk]. congruence.
Qed.

Lemma live_keys_not_stale cs :
  filter stale (Storage.keys (filter live cs)) = [].
Proof.
  unfold Storage.keys, live.
  induction cs as [|g cs IH]; simpl; [reflexivity|].
  destruct (stale (fst g)) eqn:E; simpl; [exact IH|]. now rewrite E.
Qed.

(** X7: a rollover that completes leaves exactly the live generations, in
    their creation order and with their entries; rolling over again deletes
    nothing more: it completes at once, whatever the deletions would do, and
    leaves the store as it is. *)
Theorem X7_rollover_filters_and_is_idempotent fails fails' w w' :
  activate fails w = (Fulfilled tt, w') ->
  caches w' = filter live (caches w) /\
  activate fails' (mkWorld (caches w') [])
  = (Fulfilled tt, mkWorld (caches w') [EvCachesKeys; EvClientsClaim]).
Proof.
  rewrite activate_eq. cbv zeta.
  destruct (forallb _ _) eqn:Hall; [|discriminate].
  intros E. inversion E; subst w'; clear E. cbn [caches].
  rewrite (fold_delete_filter fails _ _ Hall), stale_keys_filter.
  split; [reflexivity|].
  rewrite activate_eq. cbv zeta. cbn [caches trace].
  rewrite live_keys_not_stale. reflexivity.
Qed.

Lemma X7_witness :
  [ (CACHE_NAME, [(shell_request, new_snapshot)]);
    (IMAGE_CACHE, [(photo 1, new_snapshot)]) ]
  = filter live store_with_two_stale /\
  activate (fun _ => true)
    (mkWorld [ (CACHE_NAME, [(shell_request, new_snapshot)]);
               (IMAGE_CACHE, [(photo 1, new_snapshot)]) ] [])
  = (Fulfilled tt,
     mkWorld [ (CACHE_NAME, [(shell_request, new_snapshot)]);
               (IMAGE_CACHE, [(photo 1, new_snapshot)]) ]
             [EvCachesKeys; EvClientsClaim]).
Proof.
  apply (X7_rollover_filters_and_is_idempotent (fun _ => false) (fun _ => true)
           (mkWorld store_with_two_stale [])
           (mkWorld [ (CACHE_NAME, [(shell_request, new_snapshot)]);
                      (IMAGE_CACHE, [(photo 1, new_snapshot)]) ]
                    [EvCachesKeys; EvCachesDelete "folio-v0.8";
                     EvCachesDelete "folio-v0.9"; EvClientsClaim])).
  vm_compute. reflexivity.
Defined.

(** ** What one run of the fetch listener writes *)

(** The world after one run: either the store is as it was and the listener
    only looked up or fetched, or the run ended with the write-behind of its
    route. *)
Lemma fetch_listener_shape landing origin net request w :
  (In (snd (fetch_listener landing origin net request w))
      [ w; emit (EvCachesMatch request) w;
        emit (EvFetch request) (emit (EvCachesMatch request) w);
        emit (EvFetch request) w;
        emit (EvCachesMatch request) (emit (EvFetch request) w) ]) \/
  (exists resp,
      net request = Some resp /\ ok resp = true /\
      ((classify origin request = ImageCache /\
        Storage.match_ (caches w) request = None /\
        snd (fetch_listener landing origin net request w)
        = snd (store_image landing request resp
                 (emit (EvFetch request) (emit (EvCachesMatch request) w)))) \/
       (classify origin request = AllowlistedThirdParty /\
        Storage.match_ (caches w) request = None /\
        snd (fetch_listener landing origin net request w)
        = snd (store_current request resp
                 (emit (EvFetch request) (emit (EvCachesMatch request) w)))) \/
       (classify origin request = SameOriginNetworkFirst /\
        snd (fetch_listener landing origin net request w)
        = snd (store_current request resp (emit (EvFetch request) w))))).
Proof.
  unfold fetch_listener.
  destruct (classify origin request) eqn:Hc.
  - left. simpl. auto.
  - destruct (Storage.match_ (caches w) request) as [hit|] eqn:Hm.
    + rewrite (cache_first_hit net request _ w hit Hm).
      left. simpl. auto.
    + destruct (net request) as [resp|] eqn:Hn.
      * destruct (ok resp) eqn:Hok.
        -- rewrite (cache_first_miss_ok net request _ w resp Hm Hn Hok).
           right. exists resp. split; [reflexivity|]. split; [exact Hok|].
           left. auto.
        -- rewrite (cache_first_miss_not_ok net request _ w resp Hm Hn Hok).
           left. simpl. auto.
      * rewrite (cache_first_miss_rejected net request _ w Hm Hn).
        left. simpl. auto.
  - destruct (Storage.match_ (caches w) request) as [hit|] eqn:Hm.
    + rewrite (cache_first_hit net request _ w hit Hm).
      left. simpl. auto.
    + destruct (net request) as [resp|] eqn:Hn.
      * destruct (ok resp) eqn:Hok.
        -- rewrite (cache_first_miss_ok net request _ w resp Hm Hn Hok).
           right. exists resp. split; [reflexivity|]. split; [exact Hok|].
           right. left. auto.
        -- rewrite (cache_first_miss_not_ok net request _ w resp Hm Hn Hok).
           left. simpl. auto.
      * rewrite (cache_first_miss_rejected net request _ w Hm Hn).
        left. simpl. auto.
  - destruct (net request) as [resp|] eqn:Hn.
    + destruct (ok resp) eqn:Hok.
      * rewrite (network_first_ok net request w resp Hn Hok).
        right. exists resp. split; [reflexivity|]. split; [exact Hok|].
        right. right. auto.
      * rewrite (network_first_not_ok net request w resp Hn Hok).
        left. simpl. auto 8.
    + rewrite (network_first_rejected net request w Hn).
      left. simpl. auto 8.
Qed.

Lemma length_delete_le c k : length (Cache.delete c k) <= length c.
Proof. unfold Cache.delete. apply filter_length_le. Qed.

Lemma length_put_le c r resp : length (Cache.put c r resp) <= S (length c).
Proof.
  unfold Cache.put. rewrite length_app. simpl.
  pose proof (length_delete_le c r). lia.
Qed.

Lemma length_delete_head c k0 ks :
  Cache.keys c = k0 :: ks -> S (length (Cache.delete c k0)) <= length c.
Proof.
  destruct c as [|[k x] c]; simpl; [discriminate|].
  intros H. inversion H; subst. unfold Cache.delete. simpl.
  unfold Cache.is_key at 1. simpl. rewrite Request_eqb_refl. simpl.
  pose proof (filter_length_le (fun e => negb (Cache.is_key k0 e)) c). lia.
Qed.

Lemma image_entries_update cs f :
  Storage.entries (Storage.update (Storage.open cs IMAGE_CACHE) IMAGE_CACHE f)
                  IMAGE_CACHE
  = f (Storage.entries cs IMAGE_CACHE).
Proof.
  rewrite Storage_entries_update by apply Storage_has_open.
  now rewrite Storage_entries_open.
Qed.

Lemma image_entries_update_other cs f name :
  name <> IMAGE_CACHE ->
  Storage.entries (Storage.update (Storage.open cs IMAGE_CACHE) IMAGE_CACHE f) name
  = Storage.entries cs name.
Proof.
  intros Hne. rewrite Storage_entries_update_other by exact Hne.
  apply Storage_entries_open.
Qed.

(** The write-behind of the image route, whichever way its [put] lands:
    what it appends to the trace and what it makes of the generations. *)
Lemma store_image_effect landing r resp w :
  exists t,
    trace (snd (store_image landing r resp w)) = trace w ++ t /\
    fetched t = [] /\
    (forall name q s, In (EvCachePut name q s) t -> name = IMAGE_CACHE) /\
    (forall name, name <> IMAGE_CACHE ->
       Storage.entries (caches (snd (store_image landing r resp w))) name
       = Storage.entries (caches w) name) /\
    length (Storage.entries (caches (snd (store_image landing r resp w)))
                            IMAGE_CACHE)
    <= Nat.max (length (Storage.entries (caches w) IMAGE_CACHE))
               (S IMAGE_CACHE_LIMIT).
Proof.
  set (c := Storage.entries (caches w) IMAGE_CACHE).
  assert (Hput : forall name q s t0,
             In (EvCachePut name q s) t0 ->
             (forall e, In e t0 -> e = EvCachesOpen IMAGE_CACHE \/
                                   e = EvCachePut IMAGE_CACHE r resp \/
                                   e = EvCacheKeys IMAGE_CACHE \/
                                   exists k, e = EvCacheDelete IMAGE_CACHE k) ->
             name = IMAGE_CACHE).
  { intros name q s t0 Hin Hall.
    destruct (Hall _ Hin) as [H|[H|[H|[k H]]]]; try discriminate.
    now inversion H. }
  destruct landing.
  - rewrite store_image_eq. cbv zeta. rewrite image_entries_update. fold c.
    assert (Hlen : length (Cache.keys (Cache.put c r resp))
                   = length (Cache.put c r resp))
      by (unfold Cache.keys; apply length_map).
    pose proof (length_put_le c r resp) as Hle.
    destruct (Cache.keys (Cache.put c r resp)) as [|k0 ks] eqn:Ek;
      [|destruct (IMAGE_CACHE_LIMIT <? length (k0 :: ks))%nat eqn:El].
    + exists [EvCachesOpen IMAGE_CACHE; EvCachePut IMAGE_CACHE r resp;
              EvCacheKeys IMAGE_CACHE].
      cbn [snd caches trace]. split; [reflexivity|]. split; [reflexivity|].
      split; [|split].
      * intros name q s Hin. apply (Hput _ _ _ _ Hin).
        simpl. intros e [<-|[<-|[<-|[]]]]; auto.
      * intros name Hne. now apply image_entries_update_other.
      * rewrite image_entries_update. fold c. simpl in Hlen. lia.
    + exists [EvCachesOpen IMAGE_CACHE; EvCachePut IMAGE_CACHE r resp;
              EvCacheKeys IMAGE_CACHE; EvCacheDelete IMAGE_CACHE k0].
      cbn [snd caches trace]. split; [now rewrite <- app_assoc|].
      split; [reflexivity|]. split; [|split].
      * intros name q s Hin. apply (Hput _ _ _ _ Hin).
        simpl. intros e [<-|[<-|[<-|[<-|[]]]]]; eauto.
      * intros name Hne. rewrite Storage_update_update.
        now apply image_entries_update_other.
      * rewrite Storage_update_update, image_entries_update. fold c.
        pose proof (length_delete_head _ _ _ Ek). lia.
    + exists [EvCachesOpen IMAGE_CACHE; EvCachePut IMAGE_CACHE r resp;
              EvCacheKeys IMAGE_CACHE].
      cbn [snd caches trace]. split; [reflexivity|]. split; [reflexivity|].
      split; [|split].
      * intros name q s Hin. apply (Hput _ _ _ _ Hin).
        simpl. intros e [<-|[<-|[<-|[]]]]; auto.
      * intros name Hne. now apply image_entries_update_other.
      * rewrite image_entries_update. fold c.
        apply Nat.ltb_ge in El. rewrite Hlen in El. lia.
  - rewrite store_image_last_eq. cbv zeta. rewrite Storage_entries_open. fold c.
    assert (Hlen : length (Cache.keys c) = length c)
      by (unfold Cache.keys; apply length_map).
    destruct (Cache.keys c) as [|k0 ks] eqn:Ek;
      [|destruct (IMAGE_CACHE_LIMIT <? length (k0 :: ks))%nat eqn:El].
    + exists [EvCachesOpen IMAGE_CACHE; EvCacheKeys IMAGE_CACHE;
              EvCachePut IMAGE_CACHE r resp].
      cbn [snd caches trace]. split; [now rewrite <- app_assoc|].
      split; [reflexivity|]. split; [|split].
      * intros name q s Hin. apply (Hput _ _ _ _ Hin).
        simpl. intros e [<-|[<-|[<-|[]]]]; auto.
      * intros name Hne. now apply image_entries_update_other.
      * rewrite image_entries_update. fold c.
        pose proof (length_put_le c r resp). simpl in Hlen. lia.
    + exists [EvCachesOpen IMAGE_CACHE; EvCacheKeys IMAGE_CACHE;
              EvCacheDelete IMAGE_CACHE k0; EvCachePut IMAGE_CACHE r resp].
      cbn [snd caches trace]. split; [now rewrite <- app_assoc|].
      split; [reflexivity|]. split; [|split].
      * intros name q s Hin. apply (Hput _ _ _ _ Hin).
        simpl. intros e [<-|[<-|[<-|[<-|[]]]]]; eauto.
      * intros name Hne. rewrite Storage_update_update.
        now apply image_entries_update_other.
      * rewrite Storage_update_update, image_entries_update. fold c.
        pose proof (length_delete_head _ _ _ Ek).
        pose proof (length_put_le (Cache.delete c k0) r resp). lia.
    + exists [EvCachesOpen IMAGE_CACHE; EvCacheKeys IMAGE_CACHE;
              EvCachePut IMAGE_CACHE r resp].
      cbn [snd caches trace]. split; [now rewrite <- app_assoc|].
      split; [reflexivity|]. split; [|split].
      * intros name q s Hin. apply (Hput _ _ _ _ Hin).
        simpl. intros e [<-|[<-|[<-|[]]]]; auto.
      * intros name Hne. now apply image_entries_update_other.
      * rewrite image_entries_update. fold c.
        pose proof (length_put_le c r resp).
        apply Nat.ltb_ge in El. rewrite Hlen in El. lia.
Qed.

Lemma store_current_effect r resp w :
  trace (snd (store_current r resp w))
  = trace w ++ [EvCachesOpen CACHE_NAME; EvCachePut CACHE_NAME r resp] /\
  (forall name, name <> CACHE_NAME ->
     Storage.entries (caches (snd (store_current r resp w))) name
     = Storage.entries (caches w) name).
Proof.
  rewrite store_current_eq. cbn [snd caches trace]. split; [reflexivity|].
  intros name Hne. rewrite Storage_entries_update_other by exact Hne.
  apply Storage_entries_open.
Qed.

Lemma image_is_not_current : IMAGE_CACHE <> CACHE_NAME.
Proof. discriminate. Qed.



(** X9: the listener writes to the generation of its route and to no
    other.  Every [put] it issues names the image generation in the image
    route and the current-version generation in the two other routes, and
    every other generation keeps its entries; a bypassed request (an
    authentication or database host, a method other than GET) is never
    stored and changes no generation. *)
Theorem X9_writes_only_to_the_route_target landing origin net request cs :
  (forall name q s,
      In (EvCachePut name q s)
         (trace (snd (fetch_listener landing origin net request (mkWorld cs [])))) ->
      target (classify origin request) = Some name) /\
  (forall name,
      target (classify origin request) <> Some name ->
      Storage.entries
        (caches (snd (fetch_listener landing origin net request (mkWorld cs []))))
        name
      = Storage.entries cs name).
Proof.
  destruct (fetch_listener_shape landing origin net request (mkWorld cs []))
    as [Hin|(resp & _ & _ & [(Hc & _ & ->)|[(Hc & _ & ->)|(Hc & ->)]])].
  - simpl in Hin.
    destruct Hin as [<-|[<-|[<-|[<-|[<-|[]]]]]]; (split; [|reflexivity]);
      intros name q s H; simpl in H;
      repeat (destruct H as [H|H]; try discriminate H); contradiction.
  - rewrite Hc. cbn [target].
    destruct (store_image_effect landing request resp
                (emit (EvFetch request)
                   (emit (EvCachesMatch request) (mkWorld cs []))))
      as (t & Ht & _ & Hput & Hother & _).
    split.
    + intros name q s H. rewrite Ht in H. apply in_app_iff in H.
      destruct H as [H|H].
      * simpl in H. repeat (destruct H as [H|H]; try discriminate H).
        contradiction.
      * f_equal. symmetry. eapply Hput; eauto.
    + intros name Hne. rewrite Hother by congruence. reflexivity.
  - rewrite Hc. cbn [target].
    destruct (store_current_effect request resp
                (emit (EvFetch request)
                   (emit (EvCachesMatch request) (mkWorld cs []))))
      as (Ht & Hother).
    split.
    + intros name q s H. rewrite Ht in H. simpl in H.
      repeat (destruct H as [H|H]; try discriminate H); [|contradiction].
      now inversion H.
    + intros name Hne. rewrite Hother by congruence. reflexivity.
  - rewrite Hc. cbn [target].
    destruct (store_current_effect request resp
                (emit (EvFetch request) (mkWorld cs [])))
      as (Ht & Hother).
    split.
    + intros name q s H. rewrite Ht in H. simpl in H.
      repeat (destruct H as [H|H]; try discriminate H); [|contradiction].
      now inversion H.
    + intros name Hne. rewrite Hother by congruence. reflexivity.
Qed.









(** ** The life cycle, end to end *)





(** ** The bounded image cache, whichever way the [put] lands *)









(** ** Cache-first snapshots are never refreshed *)

Lemma Storage_match_update_unheld cs name f q :
  not_held_in name q cs ->
  (forall c, Cache.match_ c q = None -> Cache.match_ (f c) q = None) ->
  Storage.match_ (Storage.update cs name f) q = Storage.match_ cs q.
Proof.
  unfold not_held_in, Storage.update, Storage.named.
  induction cs as [|[n c] cs IH]; simpl; intros Hn Hf; [reflexivity|].
  assert (IH' : Storage.match_
                  (map (fun g => if String.eqb (fst g) name
                                 then (fst g, f (snd g)) else g) cs) q
                = Storage.match_ cs q).
  { apply IH; [|exact Hf]. intros g Hg. apply Hn. now right. }
  destruct (String.eqb n name) eqn:E; simpl.
  - apply String.eqb_eq in E.
    pose proof (Hn (n, c) (or_introl eq_refl) E) as H0. simpl in H0.
    rewrite H0, (Hf c H0). exact IH'.
  - destruct (Cache.match_ c q); [reflexivity|exact IH'].
Qed.

Lemma Storage_match_update_same cs name f q :
  (forall c, Cache.match_ (f c) q = Cache.match_ c q) ->
  Storage.match_ (Storage.update cs name f) q = Storage.match_ cs q.
Proof.
  intros Hf. unfold Storage.update, Storage.named.
  induction cs as [|[n c] cs IH]; simpl; [reflexivity|].
  destruct (String.eqb n name); simpl; rewrite ?Hf, IH; reflexivity.
Qed.

Lemma not_held_in_open name q cs name' :
  not_held_in name q cs -> not_held_in name q (Storage.open cs name').
Proof.
  unfold not_held_in, Storage.open. intros H.
  destruct (Storage.has cs name'); [exact H|].
  intros g Hg. apply in_app_iff in Hg. destruct Hg as [Hg|[<-|[]]]; auto.
Qed.

Lemma not_held_in_update name q cs name' f :
  not_held_in name q cs ->
  (name' = name ->
   forall c, Cache.match_ c q = None -> Cache.match_ (f c) q = None) ->
  not_held_in name q (Storage.update cs name' f).
Proof.
  unfold not_held_in, Storage.update, Storage.named. intros H Hf g Hg Hname.
  apply in_map_iff in Hg. destruct Hg as ([n c] & <- & Hin). simpl in *.
  destruct (String.eqb n name') eqn:E; simpl in *.
  - apply String.eqb_eq in E. subst n. apply Hf; [exact Hname|].
    now apply (H (name', c)).
  - now apply (H (n, c)).
Qed.

(** The store after the write-behind of the image route: the image
    generation went through a function that leaves unheld what it did not
    write. *)
Lemma store_image_caches landing r resp w :
  exists f,
    caches (snd (store_image landing r resp w))
    = Storage.update (Storage.open (caches w) IMAGE_CACHE) IMAGE_CACHE f /\
    (forall q c, q <> r -> Cache.match_ c q = None -> Cache.match_ (f c) q = None).
Proof.
  destruct landing.
  - rewrite store_image_eq. cbv zeta.
    destruct (Cache.keys _) as [|k0 ks];
      [|destruct (IMAGE_CACHE_LIMIT <? _)%nat]; cbn [caches].
    + exists (fun c => Cache.put c r resp). split; [reflexivity|].
      intros q c Hq Hc. now apply Cache_match_put_other.
    + exists (fun c => Cache.delete (Cache.put c r resp) k0).
      split; [apply Storage_update_update|].
      intros q c Hq Hc. apply Cache_match_delete_none.
      now apply Cache_match_put_other.
    + exists (fun c => Cache.put c r resp). split; [reflexivity|].
      intros q c Hq Hc. now apply Cache_match_put_other.
  - rewrite store_image_last_eq. cbv zeta.
    destruct (Cache.keys _) as [|k0 ks];
      [|destruct (IMAGE_CACHE_LIMIT <? _)%nat]; cbn [caches].
    + exists (fun c => Cache.put c r resp). split; [reflexivity|].
      intros q c Hq Hc. now apply Cache_match_put_other.
    + exists (fun c => Cache.put (Cache.delete c k0) r resp).
      split; [apply Storage_update_update|].
      intros q c Hq Hc. apply Cache_match_put_other; [exact Hq|].
      now apply Cache_match_delete_none.
    + exists (fun c => Cache.put c r resp). split; [reflexivity|].
      intros q c Hq Hc. now apply Cache_match_put_other.
Qed.

(** One run of the listener keeps the snapshot that answers an allowlisted
    request held outside the image generation. *)
Lemma allowlisted_snapshot_step landing origin net r w q snapshot :
  classify origin q = AllowlistedThirdParty ->
  Storage.match_ (caches w) q = Some snapshot ->
  not_held_in IMAGE_CACHE q (caches w) ->
  Storage.match_ (caches (snd (fetch_listener landing origin net r w))) q
  = Some snapshot /\
  not_held_in IMAGE_CACHE q (caches (snd (fetch_listener landing origin net r w))).
Proof.
  intros Hq Hm Himg.
  assert (Hcur : forall resp w0, caches w0 = caches w -> r <> q ->
            Storage.match_ (caches (snd (store_current r resp w0))) q
            = Some snapshot /\
            not_held_in IMAGE_CACHE q (caches (snd (store_current r resp w0)))).
  { intros resp w0 Hw0 Hne. rewrite store_current_eq. cbn [snd caches].
    rewrite Hw0. split.
    - rewrite Storage_match_update_same, Storage_match_open; [exact Hm|].
      intros c. rewrite Cache_match_put.
      apply Request_eqb_neq in Hne. now rewrite Hne.
    - apply not_held_in_update; [now apply not_held_in_open|].
      intros E. symmetry in E. now apply image_is_not_current in E. }
  destruct (fetch_listener_shape landing origin net r w)
    as [Hin|(resp & _ & _ & [(Hc & _ & ->)|[(Hc & Hmiss & ->)|(Hc & ->)]])].
  - simpl in Hin.
    destruct Hin as [<-|[<-|[<-|[<-|[<-|[]]]]]]; cbn [caches emit]; auto.
  - assert (Hne : q <> r) by (intros ->; congruence).
    destruct (store_image_caches landing r resp
                (emit (EvFetch r) (emit (EvCachesMatch r) w)))
      as (f & -> & Hf).
    cbn [caches emit]. split.
    + rewrite Storage_match_update_unheld, Storage_match_open; [exact Hm| |].
      * now apply not_held_in_open.
      * intros c. now apply Hf.
    + apply not_held_in_update; [now apply not_held_in_open|].
      intros _ c. now apply Hf.
  - apply Hcur; [reflexivity|]. intros ->. congruence.
  - apply Hcur; [reflexivity|]. intros ->. congruence.
Qed.

(** X15: a snapshot stored for an allowlisted third-party request is never
    refreshed.  Whatever requests are handled afterwards, that request
    included, and however the network answers them, the store keeps
    answering it with the same snapshot, without a fetch (provided the
    image generation, the only one with evictions, does not hold it). *)
Theorem X15_allowlisted_snapshot_never_refreshed
    landing origin net net' requests q snapshot : forall w,
  classify origin q = AllowlistedThirdParty ->
  Storage.match_ (caches w) q = Some snapshot ->
  not_held_in IMAGE_CACHE q (caches w) ->
  fetch_listener landing origin net' q
    (mkWorld (caches (run_fetches landing origin net requests w)) [])
  = (Respond snapshot,
     mkWorld (caches (run_fetches landing origin net requests w))
             [EvCachesMatch q]).
Proof.
  assert (Hinv : forall w,
            classify origin q = AllowlistedThirdParty ->
            Storage.match_ (caches w) q = Some snapshot ->
            not_held_in IMAGE_CACHE q (caches w) ->
            Storage.match_ (caches (run_fetches landing origin net requests w)) q
            = Some snapshot).
  { induction requests as [|r requests IH]; intros w Hq Hm Himg;
      cbn [run_fetches]; [exact Hm|].
    destruct (allowlisted_snapshot_step landing origin net r w q snapshot
                Hq Hm Himg) as [Hm' Himg'].
    now apply IH. }
  intros w Hq Hm Himg. unfold fetch_listener. rewrite Hq.
  apply (cache_first_hit net' q store_current
           (mkWorld (caches (run_fetches landing origin net requests w)) [])).
  now apply Hinv.
Qed.

Lemma X15_witness :
  fetch_listener PutLandsLast app_origin net_ok font_request
    (mkWorld
       (caches (run_fetches PutLandsLast app_origin net_ok
                  (font_request :: shell_request :: photos)
                  (mkWorld [(CACHE_NAME, [(font_request, old_snapshot)])] [])))
       [])
  = (Respond old_snapshot,
     mkWorld
       (caches (run_fetches PutLandsLast app_origin net_ok
                  (font_request :: shell_request :: photos)
                  (mkWorld [(CACHE_NAME, [(font_request, old_snapshot)])] [])))
       [EvCachesMatch font_request]).
Proof.
  apply (X15_allowlisted_snapshot_never_refreshed PutLandsLast app_origin
           net_ok net_ok (font_request :: shell_request :: photos) font_request
           old_snapshot
           (mkWorld [(CACHE_NAME, [(font_request, old_snapshot)])] [])).
  - reflexivity.
  - reflexivity.
  - intros g [<-|[]] H. discriminate H.
Defined.
